(** * Minefield: the game-state engine of [src/minefield/minefield.cpp]

    A shallow embedding of the cell-status flags, the board, the round
    resolver and the game loop, followed by the properties of the
    specification that concern them.

    Conventions of the embedding.
    - [unsigned int] values (coordinates, dimensions, [remainingMines], the
      flag word) are [N]; every place where the C++ arithmetic wraps is
      written out ([to_uint], [uint_dec]).
    - [int] values (hit counters, the [count] parameters) are [Z]; the
      conversions the compiler inserts are [to_int], [to_uint],
      [int_of_size_t] and [size_t_of_int].
    - A [std::vector] is a [list]; [vector::at] is a lookup that may throw.
    - [std::cin] and [rand()] are two explicit input sources threaded
      through the calls ([World]); what is written to [std::cout] is not
      modelled, except the verdict of [checkGameEnd]. *)

From Stdlib Require Import NArith ZArith String.
From stdpp Require Import base numbers option list pretty.

Local Open Scope N_scope.

(** ** Machine integers *)

Definition UINT_BITS : N := 32.
Definition UINT_MODULUS : N := 2 ^ UINT_BITS.
Definition SIZE_MODULUS : N := 2 ^ 64.

(** [int] to [unsigned int] (usual arithmetic conversions). *)
Definition to_uint (z : Z) : N := Z.to_N (z mod Z.of_N UINT_MODULUS).

(** [unsigned int] to [int]. *)
Definition to_int (u : N) : Z :=
  let u := u mod UINT_MODULUS in
  if u <? 2 ^ 31 then Z.of_N u else (Z.of_N u - Z.of_N UINT_MODULUS)%Z.

(** [size_t] to [int]. *)
Definition int_of_size_t (n : N) : Z := to_int (n mod SIZE_MODULUS).

(** [static_cast<size_t>(int)]. *)
Definition size_t_of_int (z : Z) : N := Z.to_N (z mod Z.of_N SIZE_MODULUS).

(** [a - b] on [size_t]. *)
Definition size_sub (a b : N) : N := (a + SIZE_MODULUS - b mod SIZE_MODULUS) mod SIZE_MODULUS.

(** [x--] on an [unsigned int]. *)
Definition uint_dec (x : N) : N := (x + UINT_MODULUS - 1) mod UINT_MODULUS.

(** ** Data records *)

Record Position := mkPosition { column : N; row : N }.

Global Instance Position_eq_dec : EqDecision Position.
Proof. solve_decision. Defined.

Record Player := mkPlayer {
  isHuman : bool;
  name : string;
  remainingMines : N;
  currentMines : list Position;
  currentGuesses : list Position
}.

Definition set_remainingMines (p : Player) (n : N) : Player :=
  mkPlayer (isHuman p) (name p) n (currentMines p) (currentGuesses p).
Definition set_currentMines (p : Player) (l : list Position) : Player :=
  mkPlayer (isHuman p) (name p) (remainingMines p) l (currentGuesses p).
Definition set_currentGuesses (p : Player) (l : list Position) : Player :=
  mkPlayer (isHuman p) (name p) (remainingMines p) (currentMines p) l.

(** ** Cell status flags *)

Definition CellStatusFlags : Type := N.

Module Flag.
Definition None : CellStatusFlags := 0x00.
Definition Disabled : CellStatusFlags := 0x01.
Definition HasMine : CellStatusFlags := 0x02.
Definition WasGuessed : CellStatusFlags := 0x04.
Definition SelfDetonated : CellStatusFlags := 0x08.
Definition HadCollision : CellStatusFlags := 0x10.
End Flag.

(** [operator|], [operator&] and [operator~] on the 32-bit flag word. *)
Definition flag_or (a b : CellStatusFlags) : CellStatusFlags := N.lor a b.
Definition flag_and (a b : CellStatusFlags) : CellStatusFlags := N.land a b.
Definition flag_not (a : CellStatusFlags) : CellStatusFlags := N.lnot a UINT_BITS.

Definition hasFlag (var flag : CellStatusFlags) : bool :=
  if flag =? Flag.None then var =? Flag.None
  else N.land var flag =? flag.
Global Arguments hasFlag : simpl never.

(** ** Board *)

Definition kMaxSize : Z := 4.
Definition kMinSize : Z := 2.
Definition kMaxMines : Z := 5.
Definition kMinMines : Z := 1.

Record Board := mkBoard {
  width : N;
  height : N;
  grid : list (list CellStatusFlags)
}.

(** [Board::Board]: the comparisons are between [unsigned int] and [int], so
    the constants are converted to [unsigned int]. *)
Definition Board_new (w h : N) : Board :=
  let width := if (to_uint kMinSize <=? w) && (w <=? to_uint kMaxSize)
               then w else to_uint kMinSize in
  let height := if (to_uint kMinSize <=? h) && (h <=? to_uint kMaxSize)
                then h else to_uint kMinSize in
  mkBoard width height
          (replicate (N.to_nat width) (replicate (N.to_nat height) Flag.None)).

Definition getWidth (b : Board) : N := width b.
Definition getHeight (b : Board) : N := height b.

Definition isValidPosition (b : Board) (col row : N) : bool :=
  (col <? width b) && (row <? height b).

(** [grid.at(col).at(row)]: [None] stands for [std::out_of_range]. *)
Definition grid_at (g : list (list CellStatusFlags)) (col row : N)
  : option CellStatusFlags :=
  g !! N.to_nat col ≫= λ cells, cells !! N.to_nat row.

Definition isDisabled (b : Board) (col row : N) : option bool :=
  if negb (isValidPosition b col row) then Some false
  else s ← grid_at (grid b) col row; Some (hasFlag s Flag.Disabled).

Definition isValidMineCount (b : Board) (count : N) : bool :=
  (to_uint kMinMines <=? count) && (count <=? to_uint kMaxMines).

Definition getCellStatus (b : Board) (col row : N) : option CellStatusFlags :=
  if negb (isValidPosition b col row) then Some Flag.None
  else grid_at (grid b) col row.

(** [Board::safeCellAccess]: [grid[col][row]] is handed to the callback by
    reference; the callback is a function from the old to the new status.
    (Unchecked indexing outside the vectors is undefined in C++; it cannot
    happen on a board whose grid has the declared dimensions, and the model
    leaves the grid as it is there.) *)
Definition safeCellAccess (b : Board) (col row : N)
    (onValidCell : CellStatusFlags → CellStatusFlags) : Board :=
  if isValidPosition b col row
  then mkBoard (width b) (height b)
         (alter (alter onValidCell (N.to_nat row)) (N.to_nat col) (grid b))
  else b.

(** Board display: [getSymbolForStatus]. *)
Definition getSymbolForStatus (status : CellStatusFlags) : string :=
  if hasFlag status Flag.SelfDetonated then "#"
  else if hasFlag status Flag.HadCollision then "*"
  else if hasFlag status Flag.WasGuessed && hasFlag status Flag.HasMine then "G"
  else if hasFlag status Flag.Disabled then "X"
  else ".".

(** ** Input sources and outcomes of interactive code *)

(** One attempt of [std::cin >> col >> row]: either the extraction fails, or
    two unsigned numbers are read. *)
Inductive StdinEntry :=
| BadInput
| Coords (col row : N).

Record World := mkWorld {
  stdin : list StdinEntry;   (* what the user will type *)
  randoms : list Z           (* what [rand()] will return *)
}.

Inductive Outcome (A : Type) : Type :=
| Done (a : A)        (* the call returned [a] *)
| Starved             (* still looping when the input source ran dry *)
| Threw               (* [std::out_of_range] left the call *)
| OutOfFuel.          (* still looping after the allotted iterations *)
Arguments Done {A} a.
Arguments Starved {A}.
Arguments Threw {A}.
Arguments OutOfFuel {A}.

Global Instance Outcome_ret : MRet Outcome := λ A a, Done a.
Global Instance Outcome_bind : MBind Outcome := λ A B f m,
  match m with
  | Done a => f a
  | Starved => Starved
  | Threw => Threw
  | OutOfFuel => OutOfFuel
  end.

(** ** namespace utils *)

Module utils.

Definition samePosition (a b : Position) : bool :=
  (column a =? column b) && (row a =? row b).

(** [generateRandomPosition]: two calls of [rand()] per attempt, repeated
    until the cell drawn is not disabled. *)
Fixpoint generateRandomPosition (board : Board) (rnd : list Z)
  : Outcome (Position * list Z) :=
  match rnd with
  | r1 :: r2 :: rest =>
      let col := to_uint r1 mod getWidth board in
      let row := to_uint r2 mod getHeight board in
      match isDisabled board col row with
      | None => Threw
      | Some false => Done (mkPosition col row, rest)
      | Some true => generateRandomPosition board rest
      end
  | _ => Starved
  end.

(** The callback of [removeCollidingMines]. *)
Definition markCollision (status : CellStatusFlags) : CellStatusFlags :=
  let status := flag_or status Flag.HadCollision in
  let status := flag_or status Flag.Disabled in
  flag_and status (flag_not Flag.HasMine).

(** [removeCollidingMines]: the inner loop stops at the first opponent mine
    at the same position, so its body runs once per colliding own mine. The
    state is (result, collisions, board). *)
Fixpoint removeCollidingMines (ownMines opponentMines collisions : list Position)
    (board : Board) (result : list Position)
  : list Position * list Position * Board :=
  match ownMines with
  | [] => (result, collisions, board)
  | mine :: rest =>
      if existsb (λ oppMine, samePosition mine oppMine) opponentMines
      then removeCollidingMines rest opponentMines (collisions ++ [mine])
             (safeCellAccess board (column mine) (row mine) markCollision)
             result
      else removeCollidingMines rest opponentMines collisions board
             (result ++ [mine])
  end.

Fixpoint keepNonCollidingMines (ownMines opponentMines result : list Position)
  : list Position :=
  match ownMines with
  | [] => result
  | mine :: rest =>
      if existsb (λ oppMine, samePosition mine oppMine) opponentMines
      then keepNonCollidingMines rest opponentMines result
      else keepNonCollidingMines rest opponentMines (result ++ [mine])
  end.

(** [requestPosition]: reads attempts until one is in range and not
    disabled. [||] does not evaluate [isDisabled] on an invalid position. *)
Fixpoint requestPosition (board : Board) (input : list StdinEntry)
  : Outcome (Position * list StdinEntry) :=
  match input with
  | [] => Starved
  | BadInput :: rest => requestPosition board rest
  | Coords col row :: rest =>
      let col := uint_dec col in
      let row := uint_dec row in
      if negb (isValidPosition board col row) then requestPosition board rest
      else match isDisabled board col row with
           | None => Threw
           | Some true => requestPosition board rest
           | Some false => Done (mkPosition col row, rest)
           end
  end.


End utils.

(** ** namespace game *)

Module game.

(** The callback of [collectPositions] when [markMinesOnBoard] is set. *)
Definition markMine (status : CellStatusFlags) : CellStatusFlags :=
  flag_or status Flag.HasMine.

(** One candidate position from the acting player. *)
Definition nextPosition (human : bool) (board : Board) (w : World)
  : Outcome (Position * World) :=
  if human
  then '(pos, rest) ← utils.requestPosition board (stdin w);
       mret (pos, mkWorld rest (randoms w))
  else '(pos, rest) ← utils.generateRandomPosition board (randoms w);
       mret (pos, mkWorld (stdin w) rest).

(** The [while] loop of [collectPositions]; [fuel] bounds the number of
    iterations. *)
Fixpoint collectLoop (fuel : nat) (human : bool) (count : Z)
    (markMinesOnBoard : bool) (board : Board) (targetList : list Position)
    (w : World) : Outcome (Board * list Position * World) :=
  if N.of_nat (length targetList) <? size_t_of_int count then
    match fuel with
    | O => OutOfFuel
    | S fuel =>
        '(pos, w) ← nextPosition human board w;
        let repeated := existsb (λ p, utils.samePosition p pos) targetList in
        if negb repeated
        then
          let targetList := targetList ++ [pos] in
          let board := if markMinesOnBoard
                       then safeCellAccess board (column pos) (row pos) markMine
                       else board in
          collectLoop fuel human count markMinesOnBoard board targetList w
        else collectLoop fuel human count markMinesOnBoard board targetList w
    end
  else Done (board, targetList, w).

(** Every iteration that does not starve consumes at least one entry of its
    input source, so the unread input bounds the number of iterations. *)
Definition enoughFuel (w : World) : nat :=
  S (length (stdin w) + length (randoms w)).

(** [collectPositions]: the target list is cleared first. *)
Definition collectPositions (player : Player) (count : Z) (board : Board)
    (markMinesOnBoard : bool) (w : World)
  : Outcome (Board * list Position * World) :=
  collectLoop (enoughFuel w) (isHuman player) count markMinesOnBoard board [] w.

Definition placeMines (player : Player) (quantity : Z) (board : Board) (w : World)
  : Outcome (Player * Board * World) :=
  '(board, mines, w) ← collectPositions player quantity board true w;
  mret (set_currentMines player mines, board, w).

Definition collectGuessesFromPlayer (player : Player) (opponentMines : Z)
    (board : Board) (w : World) : Outcome (Player * Board * World) :=
  '(board, guesses, w) ← collectPositions player opponentMines board false w;
  mret (set_currentGuesses player guesses, board, w).

(** The ternary [(rem >= k) ? rem - k : 0] of [detectAndRemoveCollisions]
    and [runMainLoop], with [rem] unsigned and [k] an [int]. *)
Definition subtractOrZero (rem : N) (k : Z) : N :=
  if to_uint k <=? rem then (rem - to_uint k) mod UINT_MODULUS else 0.

Definition detectAndRemoveCollisions (p1 p2 : Player) (board : Board)
  : Player * Player * Board :=
  let '(newMines1, collisions, board) :=
    utils.removeCollidingMines (currentMines p1) (currentMines p2) [] board [] in
  let newMines2 := utils.keepNonCollidingMines (currentMines p2) (currentMines p1) [] in
  let removedByP1 := int_of_size_t
    (size_sub (N.of_nat (length (currentMines p1))) (N.of_nat (length newMines1))) in
  let removedByP2 := int_of_size_t
    (size_sub (N.of_nat (length (currentMines p2))) (N.of_nat (length newMines2))) in
  let p1 := set_currentMines p1 newMines1 in
  let p2 := set_currentMines p2 newMines2 in
  let p1 := set_remainingMines p1 (subtractOrZero (remainingMines p1) removedByP1) in
  let p2 := set_remainingMines p2 (subtractOrZero (remainingMines p2) removedByP2) in
  (p1, p2, board).

(** The callback of [clearMines]. *)
Definition unmarkMine (status : CellStatusFlags) : CellStatusFlags :=
  flag_and status (flag_not Flag.HasMine).

Definition columnsOf (board : Board) : list N :=
  N.of_nat <$> seq 0 (N.to_nat (getWidth board)).
Definition rowsOf (board : Board) : list N :=
  N.of_nat <$> seq 0 (N.to_nat (getHeight board)).

Definition clearMines (board : Board) : Board :=
  foldl (λ board c,
           foldl (λ board r, safeCellAccess board c r unmarkMine)
                 board (rowsOf board))
        board (columnsOf board).

(** [countHits]: [hits] is an [int]; the inner loop stops at the first
    matching mine. (Signed overflow of [hits] needs 2^31 attacks and is
    outside the model.) *)
Fixpoint countHitsFrom (mines attacks : list Position) (hits : Z) : Z :=
  match attacks with
  | [] => hits
  | guess :: rest =>
      if existsb (λ mine, utils.samePosition guess mine) mines
      then countHitsFrom mines rest (hits + 1)%Z
      else countHitsFrom mines rest hits
  end.

Definition countHits (defender : Player) (attacks : list Position) : Z :=
  countHitsFrom (currentMines defender) attacks 0%Z.

(** The callback of [resolveSelfDetonation]. *)
Definition markSelfDetonation (status : CellStatusFlags) : CellStatusFlags :=
  let status := flag_or status Flag.Disabled in
  let status := flag_or status Flag.SelfDetonated in
  flag_and status (flag_not Flag.HasMine).

(** The loop of [resolveSelfDetonation] over [player.currentMines]; the
    state is (selfHits, updatedMines, board). *)
Fixpoint selfDetonationLoop (mines guesses : list Position) (selfHits : Z)
    (updatedMines : list Position) (board : Board)
  : Z * list Position * Board :=
  match mines with
  | [] => (selfHits, updatedMines, board)
  | mine :: rest =>
      let destroyed := existsb (λ guess, utils.samePosition mine guess) guesses in
      if destroyed
      then selfDetonationLoop rest guesses (selfHits + 1)%Z updatedMines
             (safeCellAccess board (column mine) (row mine) markSelfDetonation)
      else selfDetonationLoop rest guesses selfHits (updatedMines ++ [mine]) board
  end.

Definition resolveSelfDetonation (player : Player) (board : Board)
  : Z * Player * Board :=
  let '(selfHits, updatedMines, board) :=
    selfDetonationLoop (currentMines player) (currentGuesses player) 0%Z [] board in
  (selfHits, set_currentMines player updatedMines, board).

(** The callback of [disableGuessedPositions]. *)
Definition markGuessed (status : CellStatusFlags) : CellStatusFlags :=
  flag_or status (flag_or Flag.Disabled Flag.WasGuessed).

Definition disableGuessedPositions (guesses : list Position) (board : Board)
  : Board :=
  foldl (λ board guess, safeCellAccess board (column guess) (row guess) markGuessed)
        board guesses.

(** What [checkGameEnd] announces on [std::cout]. *)
Inductive Verdict :=
| DrawNoMines
| WinTheGame (winner : string).

(** [checkGameEnd]: the returned flag and the announcement, if any. *)
Definition checkGameEnd (p1 p2 : Player) : bool * option Verdict :=
  if (remainingMines p1 <=? 0) && (remainingMines p2 <=? 0)
  then (true, Some DrawNoMines)
  else if remainingMines p1 <=? 0
  then (true, Some (WinTheGame (name p2)))
  else if remainingMines p2 <=? 0
  then (true, Some (WinTheGame (name p1)))
  else (false, None).

(** Lines 546-559 of [runMainLoop]: hit resolution, self-detonation and the
    disabling of the guessed cells. *)
Definition resolveRound (p1 p2 : Player) (board : Board)
  : Player * Player * Board :=
  let hits1 := countHits p2 (currentGuesses p1) in
  let hits2 := countHits p1 (currentGuesses p2) in
  let p2 := set_remainingMines p2 (subtractOrZero (remainingMines p2) hits1) in
  let p1 := set_remainingMines p1 (subtractOrZero (remainingMines p1) hits2) in
  let '(selfHits1, p1, board) := resolveSelfDetonation p1 board in
  let '(selfHits2, p2, board) := resolveSelfDetonation p2 board in
  let p1 := set_remainingMines p1 (subtractOrZero (remainingMines p1) selfHits1) in
  let p2 := set_remainingMines p2 (subtractOrZero (remainingMines p2) selfHits2) in
  let board := disableGuessedPositions (currentGuesses p1) board in
  let board := disableGuessedPositions (currentGuesses p2) board in
  (p1, p2, board).

(** The body of the [while] loop of [runMainLoop], up to the call of
    [checkGameEnd]. *)
Definition playRound (p1 p2 : Player) (board : Board) (w : World)
  : Outcome (Player * Player * Board * World) :=
  let board := clearMines board in
  '(p1, board, w) ← placeMines p1 (to_int (remainingMines p1)) board w;
  '(p2, board, w) ← placeMines p2 (to_int (remainingMines p2)) board w;
  let '(p1, p2, board) := detectAndRemoveCollisions p1 p2 board in
  '(p1, board, w) ← collectGuessesFromPlayer p1 (to_int (remainingMines p2)) board w;
  '(p2, board, w) ← collectGuessesFromPlayer p2 (to_int (remainingMines p1)) board w;
  let '(p1, p2, board) := resolveRound p1 p2 board in
  mret (p1, p2, board, w).

(** [runMainLoop]; [fuel] bounds the number of rounds. *)
Fixpoint runMainLoop (fuel : nat) (p1 p2 : Player) (board : Board) (w : World)
  : Outcome (Player * Player * Board * World * option Verdict) :=
  match fuel with
  | O => OutOfFuel
  | S fuel =>
      '(p1, p2, board, w) ← playRound p1 p2 board w;
      let '(finished, verdict) := checkGameEnd p1 p2 in
      if finished then mret (p1, p2, board, w, verdict)
      else runMainLoop fuel p1 p2 board w
  end.


End game.


(** ** Board display: [operator<<] *)

Definition newline : string := String (Ascii.ascii_of_nat 10) "".

(** [std::setw(3)] before a text: padded with blanks on the left to three
    characters, never truncated. *)
Definition setw3 (text : string) : string :=
  String.concat "" (replicate (3 - String.length text) " ") +:+ text.

(** [c + 1] on an [unsigned int], as printed in the headers. *)
Definition uint_inc (x : N) : N := (x + 1) mod UINT_MODULUS.

(** The loop over the columns that prints the header. *)
Fixpoint printHeader (cols : list N) : string :=
  match cols with
  | [] => ""
  | c :: cols => setw3 (pretty (uint_inc c)) +:+ printHeader cols
  end.

(** The inner loop: the cells of row [r]. [None] when [getCellStatus]
    throws. *)
Fixpoint printCells (board : Board) (r : N) (cols : list N) : option string :=
  match cols with
  | [] => Some ""
  | c :: cols =>
      status ← getCellStatus board c r;
      rest ← printCells board r cols;
      Some (setw3 (getSymbolForStatus status) +:+ rest)
  end.

(** The outer loop: one line per row. *)
Fixpoint printRows (board : Board) (rows : list N) : option string :=
  match rows with
  | [] => Some ""
  | r :: rows =>
      cells ← printCells board r (game.columnsOf board);
      rest ← printRows board rows;
      Some (setw3 (pretty (uint_inc r)) +:+ cells +:+ newline +:+ rest)
  end.

(** What [stream << board] appends to the stream. *)
Definition printBoard (board : Board) : option string :=
  rows ← printRows board (game.rowsOf board);
  Some (newline +:+ " === BOARD === " +:+ newline +:+ "   "
        +:+ printHeader (game.columnsOf board) +:+ newline
        +:+ rows +:+ newline).


(** ** Vocabulary of the specification *)

(** The grid has the declared dimensions, and these are within the bounds of
    the constructor. *)
Definition board_wf (b : Board) : Prop :=
  (2 ≤ width b ≤ 4) ∧ (2 ≤ height b ≤ 4) ∧
  length (grid b) = N.to_nat (width b) ∧
  Forall (λ cells, length cells = N.to_nat (height b)) (grid b).

(** A position that names a cell of the board. *)
Definition onBoard (b : Board) (p : Position) : Prop :=
  isValidPosition b (column p) (row p) = true.

(** The status of the cell at a position, as [getCellStatus] reports it. *)
Definition statusAt (b : Board) (p : Position) : option CellStatusFlags :=
  getCellStatus b (column p) (row p).

(** One callback applied through [safeCellAccess] at each position of a
    list, in order: the effect on the board of every marking loop. *)
Definition applyAt (f : CellStatusFlags → CellStatusFlags)
    (ps : list Position) (b : Board) : Board :=
  foldl (λ board p, safeCellAccess board (column p) (row p) f) b ps.

(** All the cells, in the order in which [clearMines] visits them. *)
Definition allCells (b : Board) : list Position :=
  c ← game.columnsOf b; r ← game.rowsOf b; [mkPosition c r].

(** The cells a player may still choose: in range and not disabled. *)
Definition selectable (b : Board) (p : Position) : bool :=
  isValidPosition b (column p) (row p) &&
  bool_decide (isDisabled b (column p) (row p) = Some false).

Definition selectableCells (b : Board) : list Position :=
  filter (λ p, selectable b p = true) (allCells b).

(** The four markings that are meant to stay. *)
Definition permanentFlags : list CellStatusFlags :=
  [Flag.Disabled; Flag.WasGuessed; Flag.SelfDetonated; Flag.HadCollision].

Definition namedFlags : list CellStatusFlags :=
  Flag.HasMine :: permanentFlags.

(** Every permanent marking of [s] is still in [s']. *)
Definition keepsMarks (s s' : CellStatusFlags) : Prop :=
  ∀ flag, flag ∈ permanentFlags → hasFlag s flag = true → hasFlag s' flag = true.

(** The same for every cell of a board. *)
Definition boardKeepsMarks (b b' : Board) : Prop :=
  ∀ col row s, getCellStatus b col row = Some s →
    ∃ s', getCellStatus b' col row = Some s' ∧ keepsMarks s s'.

(** [max (rem - k) 0] on mathematical integers. *)
Definition flooredDifference (rem : N) (k : nat) : N := rem - N.of_nat k.


(** What a human types to choose a position (the prompt is 1-based), and
    the two values of [rand()] that make the CPU choose it. *)
Definition typed (p : Position) : StdinEntry :=
  Coords (column p + 1) (row p + 1).

Definition drawn (p : Position) : list Z :=
  [Z.of_N (column p); Z.of_N (row p)].

(** An input on which the player of the given kind chooses exactly the
    positions [ps], in order. *)
Definition choosing (human : bool) (ps : list Position) : World :=
  if human then mkWorld (typed <$> ps) [] else mkWorld [] (ps ≫= drawn).


(** The callbacks that the game hands to [safeCellAccess]. *)
Definition callbacks : list (CellStatusFlags → CellStatusFlags) :=
  [utils.markCollision; game.markMine; game.unmarkMine;
   game.markSelfDetonation; game.markGuessed].

(** [reaches b b']: [b'] is [b] after some marking loops of the game. *)
Inductive reaches : Board → Board → Prop :=
| reaches_here b : reaches b b
| reaches_mark b b' f ps :
    f ∈ callbacks → reaches b b' → reaches b (applyAt f ps b').

Definition sameDimensions (b b' : Board) : Prop :=
  width b' = width b ∧ height b' = height b.


(** ** Scenarios *)

(** Two human players with [mines] mines each. *)
Definition player1 (mines : N) : Player := mkPlayer true "Player 1" mines [] [].
Definition player2 (mines : N) : Player := mkPlayer true "Player 2" mines [] [].

(** 2x2 board, one mine each, both placed on the cell typed as "2 2". *)
Definition collisionSession : World := mkWorld [Coords 2 2; Coords 2 2] [].

(** 3x3 board, two mines each: Player 1 finds both mines of Player 2, who
    finds none. *)
Definition winningSession : World :=
  mkWorld [Coords 1 1; Coords 1 2;      (* mines of Player 1 *)
           Coords 3 3; Coords 3 2;      (* mines of Player 2 *)
           Coords 3 2; Coords 3 3;      (* guesses of Player 1 *)
           Coords 2 1; Coords 2 2] [].  (* guesses of Player 2 *)

(** 3x3 board, three mines each: the mine of Player 1 at (0,0) is guessed by
    Player 2 and by Player 1. *)
Definition doubleLossSession : World :=
  mkWorld [Coords 1 1; Coords 1 2; Coords 2 1;
           Coords 2 2; Coords 3 1; Coords 3 2;
           Coords 1 1; Coords 3 3; Coords 2 3;
           Coords 1 1; Coords 1 3; Coords 2 3] [].


(** 3x3 board, three mines each, two of them on the same cells. *)
Definition collider1 : Player :=
  mkPlayer true "Player 1" 3 [mkPosition 0 0; mkPosition 1 1; mkPosition 2 0] [].
Definition collider2 : Player :=
  mkPlayer true "Player 2" 3 [mkPosition 1 1; mkPosition 0 2; mkPosition 0 0] [].
Definition collisionBoard : Board :=
  applyAt game.markMine (currentMines collider1 ++ currentMines collider2)
    (Board_new 3 3).


(** A cell of the board that currently carries [HasMine]. *)
Definition carriesMine (b : Board) (p : Position) : Prop :=
  onBoard b p ∧ ∃ s, statusAt b p = Some s ∧ hasFlag s Flag.HasMine = true.

(** The board left by the round that Player 1 won, and its mined cells. *)
Definition boardAfterWin : Board :=
  mkBoard 3 3 [[2; 2; 0]; [5; 5; 0]; [0; 7; 7]].
Definition minesAfterWin : list Position :=
  [mkPosition 0 0; mkPosition 0 1; mkPosition 2 1; mkPosition 2 2].


(** The counters and list sizes of a player fit an [unsigned int]. *)
Definition player_fits (p : Player) : Prop :=
  remainingMines p < UINT_MODULUS ∧
  N.of_nat (length (currentMines p)) < UINT_MODULUS ∧
  N.of_nat (length (currentGuesses p)) < UINT_MODULUS.

(** The players and the board of [doubleLossSession] when the guesses are
    in: the mine of Player 1 at (0,0) is guessed by both players. *)
Definition duelist1 : Player :=
  mkPlayer true "Player 1" 3
    [mkPosition 0 0; mkPosition 0 1; mkPosition 1 0]
    [mkPosition 0 0; mkPosition 2 2; mkPosition 1 2].
Definition duelist2 : Player :=
  mkPlayer true "Player 2" 3
    [mkPosition 1 1; mkPosition 2 0; mkPosition 2 1]
    [mkPosition 0 0; mkPosition 0 2; mkPosition 1 2].
Definition duelBoard : Board :=
  applyAt game.markMine (currentMines duelist1 ++ currentMines duelist2)
    (Board_new 3 3).


(** 3x3 board, one mine each: Player 1 guesses the cell of their own mine. *)
Definition selfDetonationSession : World :=
  mkWorld [Coords 1 1; Coords 2 2; Coords 1 1; Coords 3 3] [].


(** ** Vocabulary of the further properties *)






(** * Properties *)

(** ** Positions and the search loops *)

Section positions.
Implicit Types (p q : Position) (l : list Position).

Lemma samePosition_decide p q : utils.samePosition p q = bool_decide (p = q).
Proof.
  destruct p as [c r], q as [c' r']. unfold utils.samePosition. simpl.
  destruct (N.eqb_spec c c') as [->|Hc], (N.eqb_spec r r') as [->|Hr]; simpl;
    symmetry; [by apply bool_decide_eq_true| | |];
    apply bool_decide_eq_false; congruence.
Qed.

Lemma existsb_bool_decide (f : Position → bool) (P : Position → Prop)
    `{∀ x, Decision (P x)} l :
  (∀ x, f x = bool_decide (P x)) →
  existsb f l = bool_decide (Exists P l).
Proof.
  intros Hf. induction l as [|x l IH]; cbn [existsb].
  - symmetry. apply bool_decide_eq_false. by inversion 1.
  - rewrite Hf, IH. rewrite <-bool_decide_or. apply bool_decide_ext.
    by rewrite Exists_cons.
Qed.

(** The search for an element equal to [p], as written at the call sites
    where [p] is the first argument of [samePosition]. *)
Lemma existsb_same_l p l :
  existsb (λ q, utils.samePosition p q) l = bool_decide (p ∈ l).
Proof.
  rewrite (existsb_bool_decide _ (λ q, p = q)) by (intros; apply samePosition_decide).
  apply bool_decide_ext. rewrite Exists_exists. split.
  - by intros (q & Hq & ->).
  - intros Hp. by exists p.
Qed.

(** The same with [p] as the second argument ([std::any_of] in
    [collectPositions]). *)
Lemma existsb_same_r p l :
  existsb (λ q, utils.samePosition q p) l = bool_decide (p ∈ l).
Proof.
  rewrite (existsb_bool_decide _ (λ q, q = p)) by (intros; apply samePosition_decide).
  apply bool_decide_ext. rewrite Exists_exists. split.
  - by intros (q & Hq & <-).
  - intros Hp. by exists p.
Qed.

Lemma length_filter_split (P : Position → Prop) `{∀ x, Decision (P x)} l :
  (length (filter P l) + length (filter (λ x, ¬ P x) l))%nat = length l.
Proof.
  induction l as [|x l IH]; [done|].
  rewrite !filter_cons. destruct (decide (P x)), (decide (¬ P x)); simpl; try lia; tauto.
Qed.

End positions.

(** ** The flag algebra, bit by bit *)

Section flags.
Implicit Types (s : CellStatusFlags) (k m : N).

Lemma hasFlag_bit s k : hasFlag s (2 ^ k) = N.testbit s k.
Proof.
  unfold hasFlag, Flag.None.
  destruct (N.eqb_spec (2 ^ k) 0) as [H0|_].
  { by apply N.pow_nonzero in H0. }
  destruct (N.testbit s k) eqn:Hk.
  - apply N.eqb_eq, N.bits_inj. intros m.
    rewrite N.land_spec, N.pow2_bits_eqb.
    destruct (N.eqb_spec k m) as [<-|_]; [by rewrite Hk|apply andb_false_r].
  - apply N.eqb_neq. intros Heq.
    assert (N.testbit (N.land s (2 ^ k)) k = true) as Hbit.
    { rewrite Heq, N.pow2_bits_eqb. by apply N.eqb_eq. }
    rewrite N.land_spec, Hk in Hbit. done.
Qed.

Lemma hasFlag_Disabled s : hasFlag s Flag.Disabled = N.testbit s 0.
Proof. apply (hasFlag_bit s 0). Qed.
Lemma hasFlag_HasMine s : hasFlag s Flag.HasMine = N.testbit s 1.
Proof. apply (hasFlag_bit s 1). Qed.
Lemma hasFlag_WasGuessed s : hasFlag s Flag.WasGuessed = N.testbit s 2.
Proof. apply (hasFlag_bit s 2). Qed.
Lemma hasFlag_SelfDetonated s : hasFlag s Flag.SelfDetonated = N.testbit s 3.
Proof. apply (hasFlag_bit s 3). Qed.
Lemma hasFlag_HadCollision s : hasFlag s Flag.HadCollision = N.testbit s 4.
Proof. apply (hasFlag_bit s 4). Qed.

(** [status & ~HasMine] clears bit 1 (and whatever lies above the word). *)
Lemma testbit_clear_HasMine s m :
  N.testbit (flag_and s (flag_not Flag.HasMine)) m
  = N.testbit s m && negb (m =? 1) && (m <? UINT_BITS).
Proof.
  unfold flag_and, flag_not. rewrite N.land_spec.
  destruct (N.ltb_spec m UINT_BITS) as [Hlt|Hge].
  - rewrite N.lnot_spec_low by done. change Flag.HasMine with (2 ^ 1).
    rewrite N.pow2_bits_eqb, (N.eqb_sym 1 m). by rewrite andb_true_r.
  - rewrite N.lnot_spec_high by done. change Flag.HasMine with (2 ^ 1).
    rewrite N.pow2_bits_eqb.
    destruct (N.eqb_spec 1 m) as [<-|_]; [by compute in Hge|].
    by rewrite !andb_false_r.
Qed.

Lemma testbit_flag_or s k m :
  N.testbit (flag_or s (2 ^ k)) m = N.testbit s m || (m =? k).
Proof. unfold flag_or. by rewrite N.lor_spec, N.pow2_bits_eqb, (N.eqb_sym k m). Qed.

Lemma testbit_mark_HasMine s m :
  N.testbit (flag_or s Flag.HasMine) m = N.testbit s m || (m =? 1).
Proof. apply (testbit_flag_or s 1). Qed.

End flags.

(** Rewrites every [hasFlag] of a named flag and every callback into a
    Boolean formula over the bits of the old status. *)
Ltac flag_bits :=
  unfold utils.markCollision, game.markMine, game.unmarkMine,
    game.markSelfDetonation, game.markGuessed in *;
  rewrite ?hasFlag_Disabled, ?hasFlag_HasMine, ?hasFlag_WasGuessed,
    ?hasFlag_SelfDetonated, ?hasFlag_HadCollision in *;
  change Flag.Disabled with (2 ^ 0) in *;
  change Flag.WasGuessed with (2 ^ 2) in *;
  change Flag.SelfDetonated with (2 ^ 3) in *;
  change Flag.HadCollision with (2 ^ 4) in *;
  rewrite ?testbit_clear_HasMine, ?testbit_mark_HasMine, ?testbit_flag_or in *;
  cbn [N.eqb N.ltb N.compare Pos.eqb Pos.compare Pos.compare_cont UINT_BITS
       negb andb orb] in *;
  rewrite ?andb_true_r, ?orb_true_r, ?orb_false_r, ?andb_false_r in *.

Section callbacks.
Implicit Types (s : CellStatusFlags).

(** What each callback does to each of the five flags. *)

Lemma markCollision_flags s :
  let s' := utils.markCollision s in
  hasFlag s' Flag.Disabled = true ∧ hasFlag s' Flag.HadCollision = true ∧
  hasFlag s' Flag.HasMine = false ∧
  hasFlag s' Flag.WasGuessed = hasFlag s Flag.WasGuessed ∧
  hasFlag s' Flag.SelfDetonated = hasFlag s Flag.SelfDetonated.
Proof. cbv zeta. by flag_bits. Qed.

Lemma markMine_flags s :
  let s' := game.markMine s in
  hasFlag s' Flag.HasMine = true ∧
  hasFlag s' Flag.Disabled = hasFlag s Flag.Disabled ∧
  hasFlag s' Flag.WasGuessed = hasFlag s Flag.WasGuessed ∧
  hasFlag s' Flag.SelfDetonated = hasFlag s Flag.SelfDetonated ∧
  hasFlag s' Flag.HadCollision = hasFlag s Flag.HadCollision.
Proof. cbv zeta. by flag_bits. Qed.

Lemma unmarkMine_flags s :
  let s' := game.unmarkMine s in
  hasFlag s' Flag.HasMine = false ∧
  hasFlag s' Flag.Disabled = hasFlag s Flag.Disabled ∧
  hasFlag s' Flag.WasGuessed = hasFlag s Flag.WasGuessed ∧
  hasFlag s' Flag.SelfDetonated = hasFlag s Flag.SelfDetonated ∧
  hasFlag s' Flag.HadCollision = hasFlag s Flag.HadCollision.
Proof. cbv zeta. by flag_bits. Qed.

Lemma markSelfDetonation_flags s :
  let s' := game.markSelfDetonation s in
  hasFlag s' Flag.Disabled = true ∧ hasFlag s' Flag.SelfDetonated = true ∧
  hasFlag s' Flag.HasMine = false ∧
  hasFlag s' Flag.WasGuessed = hasFlag s Flag.WasGuessed ∧
  hasFlag s' Flag.HadCollision = hasFlag s Flag.HadCollision.
Proof. cbv zeta. by flag_bits. Qed.

Lemma markGuessed_flags s :
  let s' := game.markGuessed s in
  hasFlag s' Flag.Disabled = true ∧ hasFlag s' Flag.WasGuessed = true ∧
  hasFlag s' Flag.HasMine = hasFlag s Flag.HasMine ∧
  hasFlag s' Flag.SelfDetonated = hasFlag s Flag.SelfDetonated ∧
  hasFlag s' Flag.HadCollision = hasFlag s Flag.HadCollision.
Proof.
  cbv zeta. unfold game.markGuessed.
  replace (flag_or s (flag_or Flag.Disabled Flag.WasGuessed))
    with (flag_or (flag_or s Flag.Disabled) Flag.WasGuessed)
    by (unfold flag_or; symmetry; apply N.lor_assoc).
  by flag_bits.
Qed.

End callbacks.

(** ** The board: bounds-checked access *)

Section board.
Implicit Types (b : Board) (f : CellStatusFlags → CellStatusFlags)
  (c r : N) (p : Position) (ps : list Position).

Lemma isValidPosition_lt b c r :
  isValidPosition b c r = true ↔ c < width b ∧ r < height b.
Proof. unfold isValidPosition. rewrite andb_true_iff, !N.ltb_lt. done. Qed.

Lemma width_safeCellAccess b c r f : width (safeCellAccess b c r f) = width b.
Proof. unfold safeCellAccess. by destruct (isValidPosition b c r). Qed.

Lemma height_safeCellAccess b c r f : height (safeCellAccess b c r f) = height b.
Proof. unfold safeCellAccess. by destruct (isValidPosition b c r). Qed.

Lemma isValidPosition_safeCellAccess b c r f c' r' :
  isValidPosition (safeCellAccess b c r f) c' r' = isValidPosition b c' r'.
Proof.
  unfold isValidPosition. by rewrite width_safeCellAccess, height_safeCellAccess.
Qed.

Lemma grid_at_safeCellAccess b c r f c' r' :
  grid_at (grid (safeCellAccess b c r f)) c' r'
  = if isValidPosition b c r && bool_decide (c = c' ∧ r = r')
    then f <$> grid_at (grid b) c' r'
    else grid_at (grid b) c' r'.
Proof.
  unfold safeCellAccess. destruct (isValidPosition b c r); [|done].
  cbn [grid andb]. unfold grid_at. rewrite list_lookup_alter.
  destruct (decide (N.to_nat c = N.to_nat c')) as [Hc|Hc].
  - apply N2Nat.inj in Hc as <-.
    destruct (grid b !! N.to_nat c) as [cells|]; cbn.
    + rewrite list_lookup_alter.
      destruct (decide (N.to_nat r = N.to_nat r')) as [Hr|Hr].
      * apply N2Nat.inj in Hr as <-. by rewrite bool_decide_eq_true_2.
      * rewrite bool_decide_eq_false_2; [done|]. intros [_ ->]. done.
    + by destruct (bool_decide _).
  - rewrite bool_decide_eq_false_2; [done|]. intros [-> _]. done.
Qed.

Lemma getCellStatus_safeCellAccess b c r f c' r' :
  getCellStatus (safeCellAccess b c r f) c' r'
  = if isValidPosition b c r && bool_decide (c = c' ∧ r = r')
    then f <$> getCellStatus b c' r'
    else getCellStatus b c' r'.
Proof.
  unfold getCellStatus.
  rewrite isValidPosition_safeCellAccess, grid_at_safeCellAccess.
  destruct (isValidPosition b c r) eqn:Hv; [|done]. cbn [andb].
  case_bool_decide as Heq; [|done]. destruct Heq as [<- <-]. by rewrite Hv.
Qed.

Lemma isDisabled_safeCellAccess b c r f c' r' :
  (∀ s, hasFlag (f s) Flag.Disabled = hasFlag s Flag.Disabled) →
  isDisabled (safeCellAccess b c r f) c' r' = isDisabled b c' r'.
Proof.
  intros Hf. unfold isDisabled.
  rewrite isValidPosition_safeCellAccess, grid_at_safeCellAccess.
  destruct (isValidPosition b c' r'); [|done]. cbn [negb].
  destruct (_ && _); [|done].
  destruct (grid_at (grid b) c' r') as [s|]; [|done]. cbn. by rewrite Hf.
Qed.

Lemma board_wf_safeCellAccess b c r f :
  board_wf b → board_wf (safeCellAccess b c r f).
Proof.
  intros (Hw & Hh & Hcols & Hrows). unfold board_wf.
  rewrite width_safeCellAccess, height_safeCellAccess.
  repeat split; try tauto.
  - unfold safeCellAccess. destruct (isValidPosition b c r); [|done].
    cbn [grid]. by rewrite length_alter.
  - unfold safeCellAccess. destruct (isValidPosition b c r); [|done].
    cbn [grid]. apply Forall_alter; [done|].
    intros cells _ Hlen. by rewrite length_alter.
Qed.

Lemma grid_at_wf b c r :
  board_wf b → isValidPosition b c r = true → is_Some (grid_at (grid b) c r).
Proof.
  intros (_ & _ & Hcols & Hrows) [Hc Hr]%isValidPosition_lt. unfold grid_at.
  destruct (lookup_lt_is_Some_2 (grid b) (N.to_nat c)) as [cells Hcells]; [lia|].
  rewrite Hcells. cbn. apply lookup_lt_is_Some_2.
  rewrite Forall_lookup in Hrows. rewrite (Hrows _ _ Hcells). lia.
Qed.

Lemma getCellStatus_wf b c r : board_wf b → is_Some (getCellStatus b c r).
Proof.
  intros Hwf. unfold getCellStatus.
  destruct (isValidPosition b c r) eqn:Hv; [|by eexists].
  by apply grid_at_wf.
Qed.

Lemma isDisabled_wf b c r : board_wf b → is_Some (isDisabled b c r).
Proof.
  intros Hwf. unfold isDisabled.
  destruct (isValidPosition b c r) eqn:Hv; [|by eexists]. cbn [negb].
  destruct (grid_at_wf b c r Hwf Hv) as [s ->]. by eexists.
Qed.

(** *** Marking loops *)

Lemma width_applyAt f ps b : width (applyAt f ps b) = width b.
Proof.
  revert b. induction ps as [|p ps IH]; intros b; [done|].
  cbn. unfold applyAt in IH. by rewrite IH, width_safeCellAccess.
Qed.

Lemma height_applyAt f ps b : height (applyAt f ps b) = height b.
Proof.
  revert b. induction ps as [|p ps IH]; intros b; [done|].
  cbn. unfold applyAt in IH. by rewrite IH, height_safeCellAccess.
Qed.

Lemma isValidPosition_applyAt f ps b c r :
  isValidPosition (applyAt f ps b) c r = isValidPosition b c r.
Proof. unfold isValidPosition. by rewrite width_applyAt, height_applyAt. Qed.

Lemma board_wf_applyAt f ps b : board_wf b → board_wf (applyAt f ps b).
Proof.
  revert b. induction ps as [|p ps IH]; intros b Hwf; [done|].
  cbn. apply IH. by apply board_wf_safeCellAccess.
Qed.

Lemma applyAt_app f ps qs b :
  applyAt f (ps ++ qs) b = applyAt f qs (applyAt f ps b).
Proof. apply foldl_app. Qed.

(** The status of a cell after a marking loop with an idempotent callback:
    marked once if its position is listed and in range, untouched
    otherwise. *)
Lemma getCellStatus_applyAt f ps b c r :
  (∀ s, f (f s) = f s) →
  getCellStatus (applyAt f ps b) c r
  = if isValidPosition b c r && bool_decide (mkPosition c r ∈ ps)
    then f <$> getCellStatus b c r
    else getCellStatus b c r.
Proof.
  intros Hidem. revert b. induction ps as [|p ps IH]; intros b.
  - cbn. by rewrite andb_false_r.
  - change (applyAt f (p :: ps) b)
      with (applyAt f ps (safeCellAccess b (column p) (row p) f)).
    rewrite IH, isValidPosition_safeCellAccess, getCellStatus_safeCellAccess.
    destruct (isValidPosition b c r) eqn:Hv; cbn [andb].
    + destruct (decide (p = mkPosition c r)) as [->|Hne].
      * cbn [column row]. rewrite Hv. cbn [andb].
        rewrite (bool_decide_eq_true_2 (c = c ∧ r = r)) by done.
        rewrite (bool_decide_eq_true_2 (_ ∈ _ :: _)) by left.
        destruct (bool_decide _); [|done].
        destruct (getCellStatus b c r); [|done]. cbn. by rewrite Hidem.
      * rewrite (bool_decide_eq_false_2 (column p = c ∧ row p = r)).
        2:{ intros [<- <-]. by destruct p. }
        rewrite andb_false_r.
        rewrite (bool_decide_ext (_ ∈ p :: ps) (mkPosition c r ∈ ps)); [done|].
        rewrite elem_of_cons. split; [|by right].
        by intros [Heq|Hin]; [destruct Hne|].
    + destruct (decide (column p = c ∧ row p = r)) as [[<- <-]|Hne].
      * by rewrite Hv.
      * by rewrite (bool_decide_eq_false_2 _ Hne), andb_false_r.
Qed.

End board.

(** ** The list loops as filters *)

Section loops.
Implicit Types (b : Board) (p : Position) (own opp mines guesses : list Position).

Lemma removeCollidingMines_spec own opp collisions b result :
  utils.removeCollidingMines own opp collisions b result
  = (result ++ filter (λ m, m ∉ opp) own,
     collisions ++ filter (λ m, m ∈ opp) own,
     applyAt utils.markCollision (filter (λ m, m ∈ opp) own) b).
Proof.
  revert collisions b result.
  induction own as [|mine own IH]; intros collisions b result.
  - cbn. by rewrite !app_nil_r.
  - cbn [utils.removeCollidingMines]. rewrite existsb_same_l, !filter_cons.
    case_bool_decide as Hin; rewrite IH; repeat case_decide; try tauto;
      by rewrite <-?app_assoc.
Qed.

Lemma keepNonCollidingMines_spec own opp result :
  utils.keepNonCollidingMines own opp result
  = result ++ filter (λ m, m ∉ opp) own.
Proof.
  revert result. induction own as [|mine own IH]; intros result.
  - cbn. by rewrite app_nil_r.
  - cbn [utils.keepNonCollidingMines]. rewrite existsb_same_l, filter_cons.
    case_bool_decide as Hin; rewrite IH; case_decide; try tauto;
      by rewrite <-?app_assoc.
Qed.

Lemma countHitsFrom_spec mines attacks hits :
  game.countHitsFrom mines attacks hits
  = (hits + Z.of_nat (length (filter (λ g, g ∈ mines) attacks)))%Z.
Proof.
  revert hits. induction attacks as [|guess attacks IH]; intros hits.
  - cbn. lia.
  - cbn [game.countHitsFrom]. rewrite existsb_same_l, filter_cons.
    case_bool_decide as Hin; rewrite IH; case_decide; try tauto;
      cbn [length]; lia.
Qed.

Lemma selfDetonationLoop_spec mines guesses selfHits updated b :
  game.selfDetonationLoop mines guesses selfHits updated b
  = ((selfHits + Z.of_nat (length (filter (λ m, m ∈ guesses) mines)))%Z,
     updated ++ filter (λ m, m ∉ guesses) mines,
     applyAt game.markSelfDetonation (filter (λ m, m ∈ guesses) mines) b).
Proof.
  revert selfHits updated b.
  induction mines as [|mine mines IH]; intros selfHits updated b.
  - cbn. rewrite app_nil_r. do 2 f_equal. lia.
  - cbn [game.selfDetonationLoop]. rewrite existsb_same_l, !filter_cons.
    case_bool_decide as Hin; rewrite IH; repeat case_decide; try tauto.
    + cbn [length]. do 2 f_equal. lia.
    + by rewrite <-app_assoc.
Qed.

Lemma disableGuessedPositions_spec guesses b :
  game.disableGuessedPositions guesses b = applyAt game.markGuessed guesses b.
Proof. done. Qed.

Lemma rowsOf_safeCellAccess b c r f :
  game.rowsOf (safeCellAccess b c r f) = game.rowsOf b.
Proof. unfold game.rowsOf, getHeight. by rewrite height_safeCellAccess. Qed.

Lemma clearMines_spec b : game.clearMines b = applyAt game.unmarkMine (allCells b) b.
Proof.
  unfold game.clearMines, allCells.
  assert (∀ cols b0, game.rowsOf b0 = game.rowsOf b →
    foldl (λ board c,
             foldl (λ board r, safeCellAccess board c r game.unmarkMine)
                   board (game.rowsOf board)) b0 cols
    = applyAt game.unmarkMine
        (cols ≫= λ c, game.rowsOf b ≫= λ r, [mkPosition c r]) b0) as Hgen.
  { induction cols as [|c cols IH]; intros b0 Hrows; [done|].
    cbn [foldl]. rewrite bind_cons, applyAt_app, Hrows.
    assert (∀ rows b1,
      foldl (λ board r, safeCellAccess board c r game.unmarkMine) b1 rows
      = applyAt game.unmarkMine (rows ≫= λ r, [mkPosition c r]) b1) as Hrow.
    { induction rows as [|r rows IHr]; intros b1; [done|].
      cbn [foldl]. rewrite IHr. done. }
    rewrite Hrow. apply IH.
    unfold game.rowsOf, getHeight. by rewrite height_applyAt. }
  by apply Hgen.
Qed.

End loops.

(** ** Obtaining one position *)

Section candidates.
Implicit Types (b : Board) (p pos : Position) (w : World).

Lemma pairs_ind {A} (P : list A → Prop) :
  P [] → (∀ x, P [x]) → (∀ x y l, P l → P (x :: y :: l)) → ∀ l, P l.
Proof.
  intros H0 H1 H2. fix IH 1. intros [|x [|y l]]; [exact H0|exact (H1 x)|].
  apply H2, IH.
Qed.

Lemma selectable_spec b p :
  selectable b p = true ↔
  onBoard b p ∧ isDisabled b (column p) (row p) = Some false.
Proof.
  unfold selectable, onBoard. by rewrite andb_true_iff, bool_decide_eq_true.
Qed.

Lemma requestPosition_Done b input pos rest :
  utils.requestPosition b input = Done (pos, rest) →
  selectable b pos = true ∧ (length rest < length input)%nat.
Proof.
  induction input as [|[|col row] input IH]; cbn [utils.requestPosition length].
  - done.
  - intros [? ?]%IH. split; [done|lia].
  - destruct (isValidPosition b (uint_dec col) (uint_dec row)) eqn:Hv; cbn [negb].
    + destruct (isDisabled b (uint_dec col) (uint_dec row)) as [[|]|] eqn:Hd.
      * intros [? ?]%IH. split; [done|lia].
      * intros [= <- <-]. split; [|lia].
        apply selectable_spec. by split.
      * done.
    + intros [? ?]%IH. split; [done|lia].
Qed.

Lemma requestPosition_wf b input :
  board_wf b → utils.requestPosition b input ≠ Threw.
Proof.
  intros Hwf. induction input as [|[|col row] input IH];
    cbn [utils.requestPosition]; try done.
  destruct (isValidPosition b (uint_dec col) (uint_dec row)); cbn [negb]; [|done].
  destruct (isDisabled_wf b (uint_dec col) (uint_dec row) Hwf) as [[|] ->]; done.
Qed.

Lemma generateRandomPosition_Done b rnd pos rest :
  board_wf b →
  utils.generateRandomPosition b rnd = Done (pos, rest) →
  selectable b pos = true ∧ (length rest < length rnd)%nat.
Proof.
  intros Hwf. induction rnd as [|r1|r1 r2 rnd IH] using pairs_ind;
    cbn [utils.generateRandomPosition length]; try done.
  destruct (isDisabled b _ _) as [[|]|] eqn:Hd; try done.
  - intros [? ?]%IH. split; [done|lia].
  - intros [= <- <-]. split; [|lia].
    apply selectable_spec. split; [|done].
    destruct Hwf as (Hw & Hh & _). apply isValidPosition_lt. cbn [column row].
    unfold getWidth, getHeight. split; apply N.mod_lt; lia.
Qed.

Lemma generateRandomPosition_wf b rnd :
  board_wf b → utils.generateRandomPosition b rnd ≠ Threw.
Proof.
  intros Hwf. induction rnd as [|r1|r1 r2 rnd IH] using pairs_ind;
    cbn [utils.generateRandomPosition]; try done.
  match goal with |- context [isDisabled b ?c ?r] =>
    destruct (isDisabled_wf b c r Hwf) as [[|] ->] end; done.
Qed.

Lemma nextPosition_Done human b w pos w' :
  board_wf b →
  game.nextPosition human b w = Done (pos, w') →
  selectable b pos = true ∧ (game.enoughFuel w' < game.enoughFuel w)%nat.
Proof.
  intros Hwf. unfold game.nextPosition, game.enoughFuel. destruct human.
  - destruct (utils.requestPosition b (stdin w)) as [[pos0 rest]| | |] eqn:Hreq;
      try done.
    intros [= <- <-]. apply requestPosition_Done in Hreq as [? ?].
    split; [done|]. cbn [stdin randoms]. lia.
  - destruct (utils.generateRandomPosition b (randoms w)) as [[pos0 rest]| | |] eqn:Hgen;
      try done.
    intros [= <- <-]. apply generateRandomPosition_Done in Hgen as [? ?]; [|done].
    split; [done|]. cbn [stdin randoms]. lia.
Qed.

Lemma nextPosition_outcome human b w :
  board_wf b →
  game.nextPosition human b w = Starved ∨ ∃ pos w', game.nextPosition human b w = Done (pos, w').
Proof.
  intros Hwf. unfold game.nextPosition. destruct human.
  - pose proof (requestPosition_wf b (stdin w) Hwf) as Hne.
    destruct (utils.requestPosition b (stdin w)) as [[pos rest]| | |] eqn:Hreq;
      try done; [right; by eexists _, _|by left|].
    exfalso. clear Hne. revert Hreq. generalize (stdin w).
    intros input. induction input as [|[|col row] input IH];
      cbn [utils.requestPosition]; try done.
    destruct (negb _); [done|]. by destruct (isDisabled b _ _) as [[|]|].
  - pose proof (generateRandomPosition_wf b (randoms w) Hwf) as Hne.
    destruct (utils.generateRandomPosition b (randoms w)) as [[pos rest]| | |] eqn:Hgen;
      try done; [right; by eexists _, _|by left|].
    exfalso. clear Hne. revert Hgen. generalize (randoms w).
    intros rnd. induction rnd as [|r1|r1 r2 rnd IH] using pairs_ind;
      cbn [utils.generateRandomPosition]; try done.
    by destruct (isDisabled b _ _) as [[|]|].
Qed.

End candidates.

(** ** The collecting loop *)

Section collecting.
Implicit Types (b : Board) (p pos : Position) (w : World)
  (tl added : list Position).

Lemma elem_of_columnsOf b c : c ∈ game.columnsOf b ↔ c < width b.
Proof.
  unfold game.columnsOf, getWidth. rewrite list_elem_of_fmap. split.
  - intros (n & -> & Hn%elem_of_seq). lia.
  - intros Hc. exists (N.to_nat c). rewrite elem_of_seq. split; lia.
Qed.

Lemma elem_of_rowsOf b r : r ∈ game.rowsOf b ↔ r < height b.
Proof.
  unfold game.rowsOf, getHeight. rewrite list_elem_of_fmap. split.
  - intros (n & -> & Hn%elem_of_seq). lia.
  - intros Hr. exists (N.to_nat r). rewrite elem_of_seq. split; lia.
Qed.

Lemma elem_of_allCells b p : p ∈ allCells b ↔ onBoard b p.
Proof.
  unfold allCells, onBoard. rewrite isValidPosition_lt, list_elem_of_bind. split.
  - intros (c & (r & Hp & Hr)%list_elem_of_bind & Hc).
    apply list_elem_of_singleton in Hp as ->. cbn.
    by apply elem_of_columnsOf in Hc; apply elem_of_rowsOf in Hr.
  - intros [Hc Hr]. exists (column p). split; [|by apply elem_of_columnsOf].
    apply list_elem_of_bind. exists (row p). split; [|by apply elem_of_rowsOf].
    destruct p. cbn. apply list_elem_of_singleton. done.
Qed.

Lemma elem_of_selectableCells b p :
  p ∈ selectableCells b ↔ selectable b p = true.
Proof.
  unfold selectableCells. rewrite list_elem_of_filter, elem_of_allCells.
  split; [tauto|]. intros Hsel. split; [done|].
  by apply selectable_spec in Hsel as [? _].
Qed.

(** No more distinct selectable positions than there are selectable cells. *)
Lemma selectable_pigeonhole b tl :
  NoDup tl → Forall (λ p, selectable b p = true) tl →
  (length tl ≤ length (selectableCells b))%nat.
Proof.
  intros Hnd Hall. apply submseteq_length, NoDup_submseteq; [done|].
  intros p Hp. apply elem_of_selectableCells.
  by rewrite Forall_forall in Hall; apply Hall.
Qed.

Lemma selectable_markMine b c r p :
  selectable (safeCellAccess b c r game.markMine) p = selectable b p.
Proof.
  unfold selectable.
  rewrite isValidPosition_safeCellAccess, isDisabled_safeCellAccess; [done|].
  intros s. apply markMine_flags.
Qed.

Lemma board_wf_mark (mark : bool) b pos :
  board_wf b →
  board_wf (if mark then safeCellAccess b (column pos) (row pos) game.markMine else b).
Proof. destruct mark; [apply board_wf_safeCellAccess|done]. Qed.

(** What holds when the loop exits. *)
Lemma collectLoop_Done fuel human count mark b tl w b' tl' w' :
  board_wf b →
  game.collectLoop fuel human count mark b tl w = Done (b', tl', w') →
  ∃ added,
    tl' = tl ++ added ∧
    b' = (if mark then applyAt game.markMine added b else b) ∧
    ¬ (N.of_nat (length tl') < size_t_of_int count) ∧
    (N.of_nat (length tl) ≤ size_t_of_int count →
     N.of_nat (length tl') = size_t_of_int count) ∧
    (NoDup tl → NoDup tl') ∧
    Forall (λ p, selectable b p = true) added.
Proof.
  revert b tl w. induction fuel as [|fuel IH]; intros b tl w Hwf;
    cbn [game.collectLoop];
    destruct (N.ltb_spec (N.of_nat (length tl)) (size_t_of_int count)) as [Hlt|Hge];
    try done.
  1,3: intros [= <- <- <-]; exists []; rewrite app_nil_r;
       split_and!; [done|by destruct mark|lia|lia|done|done].
  destruct (game.nextPosition human b w) as [[pos w1]| | |] eqn:Hnext; try done.
  apply nextPosition_Done in Hnext as [Hsel _]; [|done].
  cbn [mbind Outcome_bind]. rewrite existsb_same_r.
  case_bool_decide as Hrep; cbn [negb].
  - intros H. apply IH in H as (added & ? & ? & ? & ? & ? & ?); [|done].
    exists added. by split_and!.
  - intros H. apply IH in H as (added & -> & -> & Hexit & Hexact & Hnd & Hall);
      [|by apply board_wf_mark].
    exists (pos :: added). rewrite <-app_assoc in *. split_and!; try done.
    + by destruct mark.
    + intros _. apply Hexact. rewrite length_app. cbn. lia.
    + intros Hnd0. apply Hnd. apply NoDup_app. split_and!; [done| |apply NoDup_singleton].
      intros q Hq ->%list_elem_of_singleton. done.
    + constructor; [done|].
      destruct mark; [|done].
      eapply Forall_impl; [exact Hall|]. intros q. cbn beta.
      by rewrite selectable_markMine.
Qed.

(** With the fuel of [collectPositions] the loop either returns or is left
    waiting for input. *)
Lemma collectLoop_outcome fuel human count mark b tl w :
  board_wf b → (game.enoughFuel w ≤ fuel)%nat →
  game.collectLoop fuel human count mark b tl w = Starved ∨
  ∃ res, game.collectLoop fuel human count mark b tl w = Done res.
Proof.
  revert b tl w. induction fuel as [|fuel IH]; intros b tl w Hwf Hfuel.
  { unfold game.enoughFuel in Hfuel. lia. }
  cbn [game.collectLoop].
  destruct (N.ltb_spec (N.of_nat (length tl)) (size_t_of_int count)) as [Hlt|Hge];
    [|right; by eexists].
  destruct (nextPosition_outcome human b w Hwf) as [->|(pos & w1 & Hnext)];
    [by left|].
  rewrite Hnext. cbn [mbind Outcome_bind].
  apply nextPosition_Done in Hnext as [_ Hless]; [|done].
  destruct (negb _); apply IH; try done; try lia.
  by apply board_wf_mark.
Qed.

End collecting.

(** ** Inputs on which the loop returns *)

Section choosing.
Implicit Types (b : Board) (p : Position) (tl ps : list Position).

Lemma nextPosition_choosing human b p ps :
  board_wf b → selectable b p = true →
  game.nextPosition human b (choosing human (p :: ps))
  = Done (p, choosing human ps).
Proof.
  intros Hwf [Hon Hdis]%selectable_spec.
  pose proof Hon as [Hc Hr]%isValidPosition_lt.
  destruct Hwf as (Hw & Hh & _). destruct p as [c r]. cbn [column row] in *.
  unfold game.nextPosition, choosing. destruct human.
  - cbn [stdin randoms fmap list_fmap typed column row utils.requestPosition].
    assert (uint_dec (c + 1) = c) as ->.
    { unfold uint_dec, UINT_MODULUS, UINT_BITS.
      replace (c + 1 + 2 ^ 32 - 1) with (c + 2 ^ 32) by lia.
      rewrite N.Div0.add_mod, N.Div0.mod_same, N.add_0_r, N.Div0.mod_mod.
      apply N.mod_small. lia. }
    assert (uint_dec (r + 1) = r) as ->.
    { unfold uint_dec, UINT_MODULUS, UINT_BITS.
      replace (r + 1 + 2 ^ 32 - 1) with (r + 2 ^ 32) by lia.
      rewrite N.Div0.add_mod, N.Div0.mod_same, N.add_0_r, N.Div0.mod_mod.
      apply N.mod_small. lia. }
    by rewrite Hon, Hdis.
  - cbn [stdin randoms]. rewrite bind_cons.
    cbn [drawn column row app utils.generateRandomPosition].
    assert (∀ x, x < 4294967296 → to_uint (Z.of_N x) = x) as Huint.
    { intros x Hx. unfold to_uint, UINT_MODULUS, UINT_BITS.
      rewrite Z.mod_small by lia. lia. }
    rewrite !Huint by lia. unfold getWidth, getHeight.
    rewrite !N.mod_small by done. by rewrite Hdis.
Qed.

Lemma collectLoop_choosing fuel human count mark b tl ps :
  board_wf b → NoDup (tl ++ ps) →
  Forall (λ p, selectable b p = true) ps →
  N.of_nat (length (tl ++ ps)) = size_t_of_int count →
  (length ps ≤ fuel)%nat →
  game.collectLoop fuel human count mark b tl (choosing human ps)
  = Done (if mark then applyAt game.markMine ps b else b,
          tl ++ ps, choosing human []).
Proof.
  revert fuel b tl. induction ps as [|p ps IH]; intros fuel b tl Hwf Hnd Hall Hlen Hfuel.
  - rewrite app_nil_r in *.
    destruct fuel; cbn [game.collectLoop];
      (destruct (N.ltb_spec (N.of_nat (length tl)) (size_t_of_int count)); [lia|]);
      by destruct mark.
  - rewrite length_app in Hlen. cbn [length] in *.
    destruct fuel as [|fuel]; [lia|]. cbn [game.collectLoop].
    destruct (N.ltb_spec (N.of_nat (length tl)) (size_t_of_int count)); [|lia].
    apply Forall_cons in Hall as [Hp Hall].
    rewrite nextPosition_choosing by done. cbn [mbind Outcome_bind].
    rewrite existsb_same_r.
    rewrite bool_decide_eq_false_2.
    2:{ apply NoDup_app in Hnd as (_ & Hdisj & _). intros Hin.
        apply (Hdisj p Hin). left. }
    cbn [negb]. rewrite (cons_middle p tl ps), app_assoc in Hnd |- *.
    rewrite IH; [by destruct mark|by apply board_wf_mark|done| | |lia].
    + destruct mark; [|done]. eapply Forall_impl; [exact Hall|].
      intros q. cbn beta. by rewrite selectable_markMine.
    + rewrite !length_app. cbn [length]. lia.
Qed.

End choosing.

(** ** Construction *)

Section construction.

Lemma Board_new_dimensions w h :
  width (Board_new w h) = (if bool_decide (2 ≤ w ≤ 4) then w else 2) ∧
  height (Board_new w h) = (if bool_decide (2 ≤ h ≤ 4) then h else 2).
Proof.
  unfold Board_new. cbn [width height].
  change (to_uint kMinSize) with 2. change (to_uint kMaxSize) with 4.
  split.
  - destruct (N.leb_spec 2 w), (N.leb_spec w 4); cbn [andb];
      case_bool_decide; done || lia.
  - destruct (N.leb_spec 2 h), (N.leb_spec h 4); cbn [andb];
      case_bool_decide; done || lia.
Qed.

Lemma Board_new_range w h :
  2 ≤ width (Board_new w h) ≤ 4 ∧ 2 ≤ height (Board_new w h) ≤ 4.
Proof.
  destruct (Board_new_dimensions w h) as [-> ->].
  split; case_bool_decide; lia.
Qed.

Lemma board_wf_Board_new w h : board_wf (Board_new w h).
Proof.
  destruct (Board_new_range w h) as [Hw Hh]. split_and!; try tauto.
  - unfold Board_new. cbn [grid width]. by rewrite length_replicate.
  - unfold Board_new. cbn [grid height]. apply Forall_replicate.
    by rewrite length_replicate.
Qed.

Lemma getCellStatus_Board_new w h c r :
  getCellStatus (Board_new w h) c r = Some Flag.None.
Proof.
  unfold getCellStatus.
  destruct (isValidPosition (Board_new w h) c r) eqn:Hv; [|done]. cbn [negb].
  apply isValidPosition_lt in Hv as [Hc Hr].
  unfold Board_new, grid_at in *. cbn [grid width height] in *.
  rewrite lookup_replicate_2 by lia. cbn. by rewrite lookup_replicate_2 by lia.
Qed.

End construction.

(** ** C10: when the collecting loop can return *)

Section termination.
Implicit Types (b : Board) (p : Position) (w : World).

Lemma NoDup_allCells b : NoDup (allCells b).
Proof.
  unfold allCells. apply NoDup_bind.
  - intros c1 c2 p _ _ (r1 & ->%list_elem_of_singleton & _)%list_elem_of_bind
      (r2 & [= -> _]%list_elem_of_singleton & _)%list_elem_of_bind. done.
  - intros c _. apply NoDup_bind.
    + by intros r1 r2 p _ _ ->%list_elem_of_singleton [= ->]%list_elem_of_singleton.
    + intros r _. apply NoDup_singleton.
    + apply NoDup_fmap_2; [|apply NoDup_seq]. intros x y. lia.
  - apply NoDup_fmap_2; [|apply NoDup_seq]. intros x y. lia.
Qed.

Lemma NoDup_selectableCells b : NoDup (selectableCells b).
Proof. apply NoDup_filter, NoDup_allCells. Qed.

Lemma isValidMineCount_range b count :
  isValidMineCount b count = bool_decide (1 ≤ count ≤ 5).
Proof.
  unfold isValidMineCount.
  change (to_uint kMinMines) with 1. change (to_uint kMaxMines) with 5.
  destruct (N.leb_spec 1 count), (N.leb_spec count 5); cbn [andb];
    case_bool_decide; done || lia.
Qed.

(** C10. [isValidMineCount] accepts every count from 1 to 5 whatever the
    board, although a 2x2 board has four cells. When [count] exceeds the
    number of cells that are in range and not disabled, the loop of
    [collectPositions] never reaches its target: on every input, however
    long, the call is still waiting for more. So [collectPositions] returns
    only if at least [count] such cells exist, and in that case there are
    inputs on which it does return. *)
Theorem collectPositions_terminates_only_with_enough_cells :
  (∀ b count, isValidMineCount b count = bool_decide (1 ≤ count ≤ 5)) ∧
  (isValidMineCount (Board_new 2 2) 5 = true ∧
   length (allCells (Board_new 2 2)) = 4%nat) ∧
  (∀ b player count mark w,
     board_wf b →
     N.of_nat (length (selectableCells b)) < size_t_of_int count →
     game.collectPositions player count b mark w = Starved) ∧
  (∀ b player count mark w res,
     board_wf b →
     game.collectPositions player count b mark w = Done res →
     size_t_of_int count ≤ N.of_nat (length (selectableCells b))) ∧
  (∀ b player count mark,
     board_wf b →
     size_t_of_int count ≤ N.of_nat (length (selectableCells b)) →
     ∃ w res, game.collectPositions player count b mark w = Done res).
Proof.
  assert (∀ b player count mark w res,
    board_wf b →
    game.collectPositions player count b mark w = Done res →
    size_t_of_int count ≤ N.of_nat (length (selectableCells b))) as Honly.
  { intros b player count mark w [[b' tl'] w'] Hwf Hdone.
    apply collectLoop_Done in Hdone
      as (added & -> & _ & Hexit & _ & Hnd & Hall); [|done].
    cbn [app] in *.
    pose proof (selectable_pigeonhole b added (Hnd (NoDup_nil_2)) Hall). lia. }
  split_and!.
  - apply isValidMineCount_range.
  - done.
  - done.
  - intros b player count mark w Hwf Hfew.
    destruct (collectLoop_outcome (game.enoughFuel w) (isHuman player) count
                mark b [] w Hwf) as [Hst|[res Hdone]]; [done|done|].
    apply Honly in Hdone; [lia|done].
  - exact Honly.
  - intros b player count mark Hwf Henough.
    set (ps := take (N.to_nat (size_t_of_int count)) (selectableCells b)).
    assert (length ps = N.to_nat (size_t_of_int count)) as Hlen.
    { unfold ps. rewrite length_take. lia. }
    exists (choosing (isHuman player) ps). eexists.
    unfold game.collectPositions. apply collectLoop_choosing; [done| | | |].
    + cbn [app]. apply (sublist_NoDup _ (selectableCells b));
        [apply NoDup_selectableCells|apply sublist_take].
    + apply Forall_take, Forall_forall. intros p. apply elem_of_selectableCells.
    + cbn [app]. lia.
    + unfold game.enoughFuel, choosing.
      destruct (isHuman player); cbn [stdin randoms length].
      * rewrite length_fmap. lia.
      * assert (∀ l : list Position, length l ≤ length (l ≫= drawn))%nat as Hle.
        { induction l as [|q l IHl]; [done|]. rewrite bind_cons, length_app.
          cbn. lia. }
        specialize (Hle ps). lia.
Qed.

(** An instance of C10: five mines asked for on a 2x2 board, with an input
    that names every cell and then starts again. *)
Lemma collectPositions_terminates_only_with_enough_cells_witness :
  game.collectPositions (mkPlayer true "Player 1" 5 [] []) 5 (Board_new 2 2) true
    (mkWorld [Coords 1 1; Coords 1 2; Coords 2 1; Coords 2 2; Coords 1 1; BadInput] [])
  = Starved.
Proof.
  apply collectPositions_terminates_only_with_enough_cells.
  - apply board_wf_Board_new.
  - vm_compute. reflexivity.
Defined.

End termination.

(** ** C4: the bounds contract of the board *)

(** C4. [isValidPosition] holds exactly when [col < width] and
    [row < height]. For every other pair of coordinates [getCellStatus]
    returns the zero value, [isDisabled] returns false, and [safeCellAccess]
    leaves the board as it is, whatever the callback; none of them throws. *)
Theorem board_bounds_contract (b : Board) (col row : N) :
  (isValidPosition b col row = true ↔ col < width b ∧ row < height b) ∧
  (¬ (col < width b ∧ row < height b) →
   getCellStatus b col row = Some Flag.None ∧
   isDisabled b col row = Some false ∧
   ∀ onValidCell, safeCellAccess b col row onValidCell = b).
Proof.
  split; [apply isValidPosition_lt|].
  intros Hout. rewrite <-isValidPosition_lt in Hout.
  apply not_true_is_false in Hout.
  unfold getCellStatus, isDisabled, safeCellAccess. by rewrite Hout.
Qed.

Lemma board_bounds_contract_witness :
  getCellStatus (Board_new 3 2) 3 1 = Some Flag.None ∧
  isDisabled (Board_new 3 2) 3 1 = Some false ∧
  ∀ onValidCell, safeCellAccess (Board_new 3 2) 3 1 onValidCell = Board_new 3 2.
Proof.
  apply (board_bounds_contract (Board_new 3 2) 3 1).
  vm_compute. intros [H _]. discriminate H.
Defined.

(** ** C6: hit counting does not depend on order *)

(** C6. [countHits] gives the same count when the attack list is permuted
    and when the defender's mine list is permuted. *)
Theorem countHits_permutation (defender defender' : Player)
    (attacks attacks' : list Position) :
  attacks ≡ₚ attacks' →
  currentMines defender ≡ₚ currentMines defender' →
  game.countHits defender attacks = game.countHits defender' attacks'.
Proof.
  intros Hattacks Hmines. unfold game.countHits.
  rewrite !countHitsFrom_spec. do 2 f_equal.
  rewrite (list_filter_iff _ (λ g, g ∈ currentMines defender')).
  - by rewrite Hattacks.
  - intros g. by rewrite Hmines.
Qed.

Lemma countHits_permutation_witness :
  game.countHits
    (mkPlayer true "Player 1" 2 [mkPosition 0 1; mkPosition 2 2] [])
    [mkPosition 2 2; mkPosition 1 1; mkPosition 0 1]
  = game.countHits
    (mkPlayer true "Player 1" 2 [mkPosition 2 2; mkPosition 0 1] [])
    [mkPosition 1 1; mkPosition 2 2; mkPosition 0 1].
Proof.
  apply countHits_permutation; cbn [currentMines]; apply perm_swap.
Defined.

(** ** How the board evolves *)

Section evolution.
Implicit Types (b : Board) (s : CellStatusFlags) (ps : list Position).

Ltac bits_of_callback :=
  intros; apply N.bits_inj; intros m;
  unfold utils.markCollision, game.markMine, game.unmarkMine,
    game.markSelfDetonation, game.markGuessed;
  change Flag.Disabled with (2 ^ 0); change Flag.WasGuessed with (2 ^ 2);
  change Flag.SelfDetonated with (2 ^ 3); change Flag.HadCollision with (2 ^ 4);
  repeat (rewrite testbit_clear_HasMine || rewrite testbit_mark_HasMine
          || rewrite testbit_flag_or);
  repeat match goal with |- context [N.testbit ?s m] => destruct (N.testbit s m) end;
  repeat match goal with |- context [m =? ?k] => destruct (m =? k) end;
  repeat match goal with |- context [m <? ?k] => destruct (m <? k) end;
  done.

Lemma markCollision_idempotent s :
  utils.markCollision (utils.markCollision s) = utils.markCollision s.
Proof. bits_of_callback. Qed.

Lemma markMine_idempotent s : game.markMine (game.markMine s) = game.markMine s.
Proof. bits_of_callback. Qed.

Lemma unmarkMine_idempotent s :
  game.unmarkMine (game.unmarkMine s) = game.unmarkMine s.
Proof. bits_of_callback. Qed.

Lemma markSelfDetonation_idempotent s :
  game.markSelfDetonation (game.markSelfDetonation s) = game.markSelfDetonation s.
Proof. bits_of_callback. Qed.

Lemma markGuessed_idempotent s :
  game.markGuessed (game.markGuessed s) = game.markGuessed s.
Proof.
  unfold game.markGuessed, flag_or.
  by rewrite <-N.lor_assoc, N.lor_diag.
Qed.

Lemma keepsMarks_refl s : keepsMarks s s.
Proof. by intros flag _. Qed.

Lemma keepsMarks_trans s1 s2 s3 :
  keepsMarks s1 s2 → keepsMarks s2 s3 → keepsMarks s1 s3.
Proof. intros H12 H23 flag Hflag H1. by apply H23, H12. Qed.

Lemma elem_of_permanentFlags flag :
  flag ∈ permanentFlags ↔
  flag = Flag.Disabled ∨ flag = Flag.WasGuessed ∨
  flag = Flag.SelfDetonated ∨ flag = Flag.HadCollision.
Proof.
  unfold permanentFlags. rewrite !elem_of_cons, elem_of_nil. tauto.
Qed.

Lemma callbacks_keepMarks f s : f ∈ callbacks → keepsMarks s (f s).
Proof.
  unfold callbacks. rewrite !elem_of_cons, elem_of_nil.
  intros Hf flag Hflag%elem_of_permanentFlags.
  destruct Hf as [->|[->|[->|[->|[->|Hnone]]]]]; [| | | | |done].
  - destruct (markCollision_flags s) as (? & ? & ? & ? & ?).
    destruct Hflag as [-> | [-> | [-> | ->]]]; congruence.
  - destruct (markMine_flags s) as (? & ? & ? & ? & ?).
    destruct Hflag as [-> | [-> | [-> | ->]]]; congruence.
  - destruct (unmarkMine_flags s) as (? & ? & ? & ? & ?).
    destruct Hflag as [-> | [-> | [-> | ->]]]; congruence.
  - destruct (markSelfDetonation_flags s) as (? & ? & ? & ? & ?).
    destruct Hflag as [-> | [-> | [-> | ->]]]; congruence.
  - destruct (markGuessed_flags s) as (? & ? & ? & ? & ?).
    destruct Hflag as [-> | [-> | [-> | ->]]]; congruence.
Qed.

Lemma boardKeepsMarks_refl b : boardKeepsMarks b b.
Proof. intros col row s Hs. exists s. split; [done|apply keepsMarks_refl]. Qed.

Lemma boardKeepsMarks_trans b1 b2 b3 :
  boardKeepsMarks b1 b2 → boardKeepsMarks b2 b3 → boardKeepsMarks b1 b3.
Proof.
  intros H12 H23 col row s1 Hs1.
  destruct (H12 col row s1 Hs1) as (s2 & Hs2 & Hk12).
  destruct (H23 col row s2 Hs2) as (s3 & Hs3 & Hk23).
  exists s3. split; [done|]. by eapply keepsMarks_trans.
Qed.

Lemma boardKeepsMarks_safeCellAccess b c r f :
  f ∈ callbacks → boardKeepsMarks b (safeCellAccess b c r f).
Proof.
  intros Hf col row s Hs. rewrite getCellStatus_safeCellAccess, Hs.
  destruct (_ && _); cbn.
  - eexists. split; [done|]. by apply callbacks_keepMarks.
  - eexists. split; [done|]. apply keepsMarks_refl.
Qed.

Lemma boardKeepsMarks_applyAt f ps b :
  f ∈ callbacks → boardKeepsMarks b (applyAt f ps b).
Proof.
  intros Hf. revert b. induction ps as [|p ps IH]; intros b.
  - apply boardKeepsMarks_refl.
  - eapply boardKeepsMarks_trans; [|apply IH].
    by apply boardKeepsMarks_safeCellAccess.
Qed.

Lemma reaches_trans b1 b2 b3 : reaches b1 b2 → reaches b2 b3 → reaches b1 b3.
Proof. intros H12 H23. induction H23; [done|]. by constructor; auto. Qed.

Lemma reaches_applyAt f ps b : f ∈ callbacks → reaches b (applyAt f ps b).
Proof. intros Hf. constructor; [done|constructor]. Qed.

Lemma reaches_sameDimensions b b' : reaches b b' → sameDimensions b b'.
Proof.
  induction 1 as [|b b' f ps _ _ [IHw IHh]]; [done|].
  split; by rewrite ?width_applyAt, ?height_applyAt.
Qed.

Lemma reaches_wf b b' : reaches b b' → board_wf b → board_wf b'.
Proof. induction 1; [done|]. intros Hwf. by apply board_wf_applyAt; auto. Qed.

Lemma reaches_keepsMarks b b' : reaches b b' → boardKeepsMarks b b'.
Proof.
  induction 1; [apply boardKeepsMarks_refl|].
  eapply boardKeepsMarks_trans; [done|]. by apply boardKeepsMarks_applyAt.
Qed.

End evolution.

(** ** Counters *)

Ltac moduli :=
  change UINT_MODULUS with 4294967296 in *;
  change SIZE_MODULUS with 18446744073709551616 in *;
  change (Z.of_N 4294967296) with 4294967296%Z in *;
  change (Z.of_N 18446744073709551616) with 18446744073709551616%Z in *.

Section counters.
Implicit Types (rem : N) (k : Z).

Lemma to_uint_range k : to_uint k < UINT_MODULUS.
Proof.
  unfold to_uint. moduli.
  pose proof (Z.mod_pos_bound k 4294967296). lia.
Qed.

Lemma to_uint_small (n : nat) :
  N.of_nat n < UINT_MODULUS → to_uint (Z.of_nat n) = N.of_nat n.
Proof.
  unfold to_uint. moduli. intros Hn.
  rewrite Z.mod_small by lia. lia.
Qed.

Lemma to_uint_to_int (u : N) : to_uint (to_int u) = u mod UINT_MODULUS.
Proof.
  unfold to_int, to_uint. cbv zeta.
  assert (u mod UINT_MODULUS < UINT_MODULUS) as Hlt by (by apply N.mod_lt).
  moduli. change (2 ^ 31) with 2147483648.
  generalize dependent (u mod 4294967296). intros x Hlt.
  destruct (N.ltb_spec x 2147483648).
  - rewrite Z.mod_small by lia. lia.
  - replace (Z.of_N x - 4294967296)%Z
      with (Z.of_N x + (-1) * 4294967296)%Z by lia.
    rewrite Z.mod_add by lia. rewrite Z.mod_small by lia. lia.
Qed.

(** The number of entries dropped from a vector, as the [int] that the
    source computes from the two sizes. *)
Lemma to_uint_removed (before after : nat) :
  (after ≤ before)%nat → N.of_nat before < UINT_MODULUS →
  to_uint (int_of_size_t (size_sub (N.of_nat before) (N.of_nat after)))
  = N.of_nat (before - after).
Proof.
  intros Hle Hsmall. unfold int_of_size_t. rewrite to_uint_to_int.
  unfold size_sub. moduli.
  assert (N.of_nat after mod 18446744073709551616 = N.of_nat after) as ->
    by (apply N.mod_small; lia).
  replace (N.of_nat before + 18446744073709551616 - N.of_nat after)
    with (N.of_nat (before - after) + 18446744073709551616) by lia.
  rewrite N.Div0.add_mod, N.Div0.mod_same, N.add_0_r, !N.Div0.mod_mod.
  rewrite (N.mod_small _ 18446744073709551616) by lia. apply N.mod_small. lia.
Qed.

(** Every update of [remainingMines] leaves it where it was or lower. *)
Lemma subtractOrZero_le rem k : game.subtractOrZero rem k ≤ rem.
Proof.
  unfold game.subtractOrZero. destruct (N.leb_spec (to_uint k) rem); [|lia].
  etrans; [apply N.Div0.mod_le|]. lia.
Qed.

(** On values of the type, the update is the difference floored at 0. *)
Lemma subtractOrZero_floor rem (n : nat) k :
  rem < UINT_MODULUS → to_uint k = N.of_nat n →
  game.subtractOrZero rem k = flooredDifference rem n.
Proof.
  intros Hrem Hk. unfold game.subtractOrZero, flooredDifference. rewrite Hk.
  destruct (N.leb_spec (N.of_nat n) rem); [|lia].
  apply N.mod_small. moduli. lia.
Qed.

Lemma subtractOrZero_range rem k :
  game.subtractOrZero rem k < UINT_MODULUS.
Proof.
  unfold game.subtractOrZero. destruct (_ <=? _).
  - apply N.mod_lt. done.
  - done.
Qed.

Lemma countHits_nonneg defender attacks : (0 ≤ game.countHits defender attacks)%Z.
Proof. unfold game.countHits. rewrite countHitsFrom_spec. lia. Qed.

End counters.

(** ** One round *)

Section round.
Implicit Types (b : Board) (p : Player) (w : World).

Lemma bind_Done {A B} (m : Outcome A) (f : A → Outcome B) y :
  m ≫= f = Done y → ∃ x, m = Done x ∧ f x = Done y.
Proof. destruct m as [x| | |]; try done. intros Hf. by exists x. Qed.

Lemma detectAndRemoveCollisions_spec p1 p2 b :
  game.detectAndRemoveCollisions p1 p2 b
  = let kept1 := filter (λ m, m ∉ currentMines p2) (currentMines p1) in
    let kept2 := filter (λ m, m ∉ currentMines p1) (currentMines p2) in
    let removedByP1 := int_of_size_t
      (size_sub (N.of_nat (length (currentMines p1))) (N.of_nat (length kept1))) in
    let removedByP2 := int_of_size_t
      (size_sub (N.of_nat (length (currentMines p2))) (N.of_nat (length kept2))) in
    (mkPlayer (isHuman p1) (name p1)
       (game.subtractOrZero (remainingMines p1) removedByP1) kept1 (currentGuesses p1),
     mkPlayer (isHuman p2) (name p2)
       (game.subtractOrZero (remainingMines p2) removedByP2) kept2 (currentGuesses p2),
     applyAt utils.markCollision
       (filter (λ m, m ∈ currentMines p2) (currentMines p1)) b).
Proof.
  unfold game.detectAndRemoveCollisions.
  by rewrite removeCollidingMines_spec, keepNonCollidingMines_spec.
Qed.

Lemma resolveSelfDetonation_spec p b :
  game.resolveSelfDetonation p b
  = (Z.of_nat (length (filter (λ m, m ∈ currentGuesses p) (currentMines p))),
     set_currentMines p (filter (λ m, m ∉ currentGuesses p) (currentMines p)),
     applyAt game.markSelfDetonation
       (filter (λ m, m ∈ currentGuesses p) (currentMines p)) b).
Proof.
  unfold game.resolveSelfDetonation. by rewrite selfDetonationLoop_spec.
Qed.

Lemma resolveRound_spec p1 p2 b :
  game.resolveRound p1 p2 b
  = let hits1 := game.countHits p2 (currentGuesses p1) in
    let hits2 := game.countHits p1 (currentGuesses p2) in
    let blown1 := filter (λ m, m ∈ currentGuesses p1) (currentMines p1) in
    let blown2 := filter (λ m, m ∈ currentGuesses p2) (currentMines p2) in
    (mkPlayer (isHuman p1) (name p1)
       (game.subtractOrZero (game.subtractOrZero (remainingMines p1) hits2)
          (Z.of_nat (length blown1)))
       (filter (λ m, m ∉ currentGuesses p1) (currentMines p1)) (currentGuesses p1),
     mkPlayer (isHuman p2) (name p2)
       (game.subtractOrZero (game.subtractOrZero (remainingMines p2) hits1)
          (Z.of_nat (length blown2)))
       (filter (λ m, m ∉ currentGuesses p2) (currentMines p2)) (currentGuesses p2),
     applyAt game.markGuessed (currentGuesses p2)
       (applyAt game.markGuessed (currentGuesses p1)
          (applyAt game.markSelfDetonation blown2
             (applyAt game.markSelfDetonation blown1 b)))).
Proof.
  unfold game.resolveRound. rewrite !resolveSelfDetonation_spec. done.
Qed.

Lemma in_callbacks :
  utils.markCollision ∈ callbacks ∧ game.markMine ∈ callbacks ∧
  game.unmarkMine ∈ callbacks ∧ game.markSelfDetonation ∈ callbacks ∧
  game.markGuessed ∈ callbacks.
Proof. unfold callbacks. split_and!; repeat constructor. Qed.

Lemma reaches_clearMines b : reaches b (game.clearMines b).
Proof. rewrite clearMines_spec. apply reaches_applyAt, in_callbacks. Qed.

Lemma reaches_detectAndRemoveCollisions p1 p2 b :
  reaches b (game.detectAndRemoveCollisions p1 p2 b).2.
Proof.
  rewrite detectAndRemoveCollisions_spec. apply reaches_applyAt, in_callbacks.
Qed.

Lemma reaches_resolveRound p1 p2 b : reaches b (game.resolveRound p1 p2 b).2.
Proof.
  rewrite resolveRound_spec. cbn [snd].
  repeat (constructor; [apply in_callbacks|]). constructor.
Qed.

Lemma reaches_collectPositions player count mark b w b' tl' w' :
  board_wf b →
  game.collectPositions player count b mark w = Done (b', tl', w') →
  reaches b b'.
Proof.
  intros Hwf (added & _ & -> & _)%collectLoop_Done; [|done].
  destruct mark; [apply reaches_applyAt, in_callbacks|constructor].
Qed.

(** The phases of a round that returned. *)
Lemma playRound_Done p1 p2 b w p1' p2' b' w' :
  game.playRound p1 p2 b w = Done (p1', p2', b', w') →
  ∃ b1 mines1 w1 b2 mines2 w2 b3 guesses1 w3 b4 guesses2,
    let placed1 := set_currentMines p1 mines1 in
    let placed2 := set_currentMines p2 mines2 in
    let after := game.detectAndRemoveCollisions placed1 placed2 b2 in
    game.collectPositions p1 (to_int (remainingMines p1)) (game.clearMines b) true w
      = Done (b1, mines1, w1) ∧
    game.collectPositions p2 (to_int (remainingMines p2)) b1 true w1
      = Done (b2, mines2, w2) ∧
    game.collectPositions after.1.1 (to_int (remainingMines after.1.2)) after.2 false w2
      = Done (b3, guesses1, w3) ∧
    game.collectPositions after.1.2 (to_int (remainingMines after.1.1)) b3 false w3
      = Done (b4, guesses2, w') ∧
    (p1', p2', b')
      = game.resolveRound (set_currentGuesses after.1.1 guesses1)
          (set_currentGuesses after.1.2 guesses2) b4.
Proof.
  unfold game.playRound, game.placeMines, game.collectGuessesFromPlayer.
  intros ([[q1 b2] w2] & ([[b1 mines1] w1] & Hplace1 & [= <- <- <-])%bind_Done
          & H)%bind_Done.
  apply bind_Done in H
    as ([[q2 b3] w3] & ([[b2' mines2] w2'] & Hplace2 & [= <- <- <-])%bind_Done & H).
  cbn [remainingMines set_currentMines] in *.
  destruct (game.detectAndRemoveCollisions _ _ b2') as [[r1 r2] b5] eqn:Hdetect.
  apply bind_Done in H
    as ([[q3 b6] w4] & ([[b6' guesses1] w4'] & Hguess1 & [= <- <- <-])%bind_Done & H).
  apply bind_Done in H
    as ([[q4 b7] w5] & ([[b7' guesses2] w5'] & Hguess2 & [= <- <- <-])%bind_Done & H).
  cbn [remainingMines set_currentGuesses] in *.
  destruct (game.resolveRound _ _ b7') as [[s1 s2] b8] eqn:Hresolve.
  injection H as <- <- <- <-.
  exists b1, mines1, w1, b2', mines2, w2', b6', guesses1, w4', b7', guesses2.
  cbv zeta. rewrite Hdetect. cbn [fst snd]. by split_and!.
Qed.

End round.

(** ** Rounds and the loop: what every run preserves *)

Section runs.
Implicit Types (b : Board) (w : World).

Lemma playRound_preserves p1 p2 b w q1 q2 b' w' :
  board_wf b →
  game.playRound p1 p2 b w = Done (q1, q2, b', w') →
  reaches b b' ∧
  remainingMines q1 ≤ remainingMines p1 ∧ remainingMines q2 ≤ remainingMines p2.
Proof.
  intros Hwf (b1 & mines1 & w1 & b2 & mines2 & w2 & b3 & guesses1 & w3 & b4
              & guesses2 & H1 & H2 & H3 & H4 & Hres)%playRound_Done.
  cbv zeta in *.
  pose proof (reaches_clearMines b) as R0.
  pose proof (reaches_collectPositions _ _ _ _ _ _ _ _ (reaches_wf _ _ R0 Hwf) H1) as R1.
  pose proof (reaches_trans _ _ _ R0 R1) as R01.
  pose proof (reaches_collectPositions _ _ _ _ _ _ _ _ (reaches_wf _ _ R01 Hwf) H2) as R2.
  pose proof (reaches_trans _ _ _ R01 R2) as R02.
  pose proof (reaches_detectAndRemoveCollisions
                (set_currentMines p1 mines1) (set_currentMines p2 mines2) b2) as R3.
  pose proof (reaches_trans _ _ _ R02 R3) as R03.
  pose proof (reaches_collectPositions _ _ _ _ _ _ _ _ (reaches_wf _ _ R03 Hwf) H3) as R4.
  pose proof (reaches_trans _ _ _ R03 R4) as R04.
  pose proof (reaches_collectPositions _ _ _ _ _ _ _ _ (reaches_wf _ _ R04 Hwf) H4) as R5.
  pose proof (reaches_trans _ _ _ R04 R5) as R05.
  revert Hres. rewrite resolveRound_spec, detectAndRemoveCollisions_spec.
  cbv zeta. cbn [fst snd set_currentGuesses set_currentMines remainingMines
                 currentMines currentGuesses isHuman name].
  intros [= -> -> ->]. cbn [remainingMines]. split_and!.
  - eapply reaches_trans; [exact R05|].
    repeat (constructor; [apply in_callbacks|]). constructor.
  - do 2 (etrans; [apply subtractOrZero_le|]). apply subtractOrZero_le.
  - do 2 (etrans; [apply subtractOrZero_le|]). apply subtractOrZero_le.
Qed.

Lemma runMainLoop_preserves fuel p1 p2 b w q1 q2 b' w' verdict :
  board_wf b →
  game.runMainLoop fuel p1 p2 b w = Done (q1, q2, b', w', verdict) →
  reaches b b' ∧
  remainingMines q1 ≤ remainingMines p1 ∧ remainingMines q2 ≤ remainingMines p2 ∧
  game.checkGameEnd q1 q2 = (true, verdict).
Proof.
  revert p1 p2 b w. induction fuel as [|fuel IH]; intros p1 p2 b w Hwf; [done|].
  cbn [game.runMainLoop].
  intros ([[[r1 r2] b1] w1] & Hround & Hrest)%bind_Done.
  apply playRound_preserves in Hround as (R & Hle1 & Hle2); [|done].
  destruct (game.checkGameEnd r1 r2) as [[|] v] eqn:Hend.
  - injection Hrest as <- <- <- <- <-. by split_and!.
  - apply IH in Hrest as (R' & Hle1' & Hle2' & Hend'); [|by eapply reaches_wf].
    split_and!; [by eapply reaches_trans|lia|lia|done].
Qed.

End runs.

(** ** C2: the mine budget only goes down *)

(** C2. [remainingMines] is an unsigned counter, so it is never negative.
    Every update has the form [(rem >= k) ? rem - k : 0], which yields at
    most [rem]; the counts subtracted for hits and self-detonations are not
    negative. Hence collision removal, hit resolution with self-detonation, a
    whole round and a whole game leave each player's [remainingMines] where
    it was or lower. *)
Theorem remainingMines_never_increases (p1 p2 : Player) (b : Board) :
  (∀ rem k, 0 ≤ game.subtractOrZero rem k ≤ rem) ∧
  (0 ≤ game.countHits p2 (currentGuesses p1))%Z ∧
  (0 ≤ (game.resolveSelfDetonation p1 b).1.1)%Z ∧
  (let '(q1, q2, _) := game.detectAndRemoveCollisions p1 p2 b in
   0 ≤ remainingMines q1 ≤ remainingMines p1 ∧
   0 ≤ remainingMines q2 ≤ remainingMines p2) ∧
  (let '(q1, q2, _) := game.resolveRound p1 p2 b in
   0 ≤ remainingMines q1 ≤ remainingMines p1 ∧
   0 ≤ remainingMines q2 ≤ remainingMines p2) ∧
  (∀ w q1 q2 b' w',
     board_wf b →
     game.playRound p1 p2 b w = Done (q1, q2, b', w') →
     0 ≤ remainingMines q1 ≤ remainingMines p1 ∧
     0 ≤ remainingMines q2 ≤ remainingMines p2) ∧
  (∀ fuel w q1 q2 b' w' verdict,
     board_wf b →
     game.runMainLoop fuel p1 p2 b w = Done (q1, q2, b', w', verdict) →
     0 ≤ remainingMines q1 ≤ remainingMines p1 ∧
     0 ≤ remainingMines q2 ≤ remainingMines p2).
Proof.
  split_and!.
  - intros rem k. split; [lia|apply subtractOrZero_le].
  - apply countHits_nonneg.
  - rewrite resolveSelfDetonation_spec. cbn [fst]. lia.
  - rewrite detectAndRemoveCollisions_spec. cbv zeta. cbn [remainingMines].
    split_and!; try lia; apply subtractOrZero_le.
  - rewrite resolveRound_spec. cbv zeta. cbn [remainingMines].
    split_and!; try lia; (etrans; [apply subtractOrZero_le|]);
      apply subtractOrZero_le.
  - intros w q1 q2 b' w' Hwf (_ & ? & ?)%playRound_preserves; [|done].
    split_and!; lia.
  - intros fuel w q1 q2 b' w' v Hwf (_ & ? & ? & _)%runMainLoop_preserves; [|done].
    split_and!; lia.
Qed.

(** An instance of C2: the round in which Player 1 loses a mine twice. *)
Lemma remainingMines_never_increases_witness :
  ∃ q1 q2 b' w',
    game.playRound (player1 3) (player2 3) (Board_new 3 3) doubleLossSession
      = Done (q1, q2, b', w') ∧
    (0 ≤ remainingMines q1 ≤ 3 ∧ 0 ≤ remainingMines q2 ≤ 3).
Proof.
  eexists _, _, _, _. split; [vm_compute; reflexivity|].
  destruct (remainingMines_never_increases (player1 3) (player2 3) (Board_new 3 3))
    as (_ & _ & _ & _ & _ & Hround & _).
  eapply (Hround doubleLossSession);
    [apply board_wf_Board_new|vm_compute; reflexivity].
Defined.

(** ** C5: the terminal check *)

(** C5. [checkGameEnd] announces a draw exactly when both counters are 0;
    when exactly one is 0 it declares the other player the winner; otherwise
    it reports that the game goes on. The loop of [runMainLoop] returns only
    after a round for which the check said so, and runs another round
    whenever it did not. *)
Theorem checkGameEnd_decides (p1 p2 : Player) :
  (game.checkGameEnd p1 p2 = (true, Some game.DrawNoMines) ↔
   remainingMines p1 = 0 ∧ remainingMines p2 = 0) ∧
  (remainingMines p1 = 0 → remainingMines p2 ≠ 0 →
   game.checkGameEnd p1 p2 = (true, Some (game.WinTheGame (name p2)))) ∧
  (remainingMines p1 ≠ 0 → remainingMines p2 = 0 →
   game.checkGameEnd p1 p2 = (true, Some (game.WinTheGame (name p1)))) ∧
  (remainingMines p1 ≠ 0 → remainingMines p2 ≠ 0 →
   game.checkGameEnd p1 p2 = (false, None)) ∧
  (∀ fuel b w q1 q2 b' w' verdict,
     game.runMainLoop fuel p1 p2 b w = Done (q1, q2, b', w', verdict) →
     game.checkGameEnd q1 q2 = (true, verdict)) ∧
  (∀ fuel b w q1 q2 b' w',
     game.playRound p1 p2 b w = Done (q1, q2, b', w') →
     game.runMainLoop (S fuel) p1 p2 b w
     = if (game.checkGameEnd q1 q2).1
       then Done (q1, q2, b', w', (game.checkGameEnd q1 q2).2)
       else game.runMainLoop fuel q1 q2 b' w').
Proof.
  split_and!.
  - unfold game.checkGameEnd.
    destruct (N.leb_spec (remainingMines p1) 0), (N.leb_spec (remainingMines p2) 0);
      cbn [andb]; split; try done; try lia.
  - intros H1 H2. unfold game.checkGameEnd. rewrite H1. cbn [N.leb N.compare andb].
    destruct (N.leb_spec (remainingMines p2) 0); [lia|done].
  - intros H1 H2. unfold game.checkGameEnd. rewrite H2. cbn [N.leb N.compare].
    destruct (N.leb_spec (remainingMines p1) 0); [lia|done].
  - intros H1 H2. unfold game.checkGameEnd.
    destruct (N.leb_spec (remainingMines p1) 0), (N.leb_spec (remainingMines p2) 0);
      done || lia.
  - intros fuel. revert p1 p2. induction fuel as [|fuel IH];
      intros p1 p2 b w q1 q2 b' w' verdict; [done|].
    cbn [game.runMainLoop].
    intros ([[[r1 r2] b1] w1] & _ & Hrest)%bind_Done.
    destruct (game.checkGameEnd r1 r2) as [[|] v] eqn:Hend.
    + by injection Hrest as <- <- <- <- <-.
    + by eapply IH.
  - intros fuel b w q1 q2 b' w' Hround. cbn [game.runMainLoop].
    rewrite Hround. cbn [mbind Outcome_bind].
    by destruct (game.checkGameEnd q1 q2) as [[|] v].
Qed.

(** Instances of C5: the draw by collision and the win of Player 1. *)
Lemma checkGameEnd_decides_witness :
  game.checkGameEnd (player1 0) (player2 0) = (true, Some game.DrawNoMines) ∧
  game.checkGameEnd (player1 0) (player2 2)
    = (true, Some (game.WinTheGame "Player 2")) ∧
  game.checkGameEnd (player1 2) (player2 0)
    = (true, Some (game.WinTheGame "Player 1")) ∧
  game.checkGameEnd (player1 1) (player2 2) = (false, None) ∧
  ∃ q1 q2 b' w',
    game.runMainLoop 1 (player1 2) (player2 2) (Board_new 3 3) winningSession
      = Done (q1, q2, b', w', Some (game.WinTheGame "Player 1")) ∧
    game.checkGameEnd q1 q2 = (true, Some (game.WinTheGame "Player 1")).
Proof.
  split_and!.
  - destruct (checkGameEnd_decides (player1 0) (player2 0)) as (Hdraw & _).
    by apply Hdraw.
  - destruct (checkGameEnd_decides (player1 0) (player2 2)) as (_ & Hwin & _).
    by apply Hwin.
  - destruct (checkGameEnd_decides (player1 2) (player2 0)) as (_ & _ & Hwin & _).
    by apply Hwin.
  - destruct (checkGameEnd_decides (player1 1) (player2 2)) as (_ & _ & _ & Hgo & _).
    by apply Hgo.
  - eexists _, _, _, _. split; [vm_compute; reflexivity|].
    destruct (checkGameEnd_decides (player1 2) (player2 2))
      as (_ & _ & _ & _ & Hexit & _).
    eapply (Hexit 1%nat (Board_new 3 3) winningSession).
    vm_compute. reflexivity.
Defined.

(** ** C8: the permanent markings *)

(** C8. Whatever the board, placement marking, collision resolution,
    self-detonation, the disabling of guessed cells and [clearMines] leave
    every [Disabled], [WasGuessed], [SelfDetonated] and [HadCollision]
    marking in place, and so do a whole round and a whole game. Among the
    five named flags the only one that a board reached by these operations
    can have lost is [HasMine]. *)
Theorem permanent_flags_persist (b : Board) :
  (∀ ps, boardKeepsMarks b (applyAt game.markMine ps b)) ∧
  (∀ p1 p2, boardKeepsMarks b (game.detectAndRemoveCollisions p1 p2 b).2) ∧
  (∀ p, boardKeepsMarks b (game.resolveSelfDetonation p b).2) ∧
  (∀ guesses, boardKeepsMarks b (game.disableGuessedPositions guesses b)) ∧
  boardKeepsMarks b (game.clearMines b) ∧
  (∀ player count mark w b' tl' w',
     board_wf b →
     game.collectPositions player count b mark w = Done (b', tl', w') →
     boardKeepsMarks b b') ∧
  (∀ p1 p2 w q1 q2 b' w',
     board_wf b →
     game.playRound p1 p2 b w = Done (q1, q2, b', w') →
     boardKeepsMarks b b') ∧
  (∀ fuel p1 p2 w q1 q2 b' w' verdict,
     board_wf b →
     game.runMainLoop fuel p1 p2 b w = Done (q1, q2, b', w', verdict) →
     boardKeepsMarks b b') ∧
  (∀ b' col row s s' flag,
     reaches b b' → flag ∈ namedFlags →
     getCellStatus b col row = Some s → getCellStatus b' col row = Some s' →
     hasFlag s flag = true → hasFlag s' flag = false →
     flag = Flag.HasMine).
Proof.
  split_and!.
  - intros ps. apply boardKeepsMarks_applyAt, in_callbacks.
  - intros p1 p2. apply reaches_keepsMarks, reaches_detectAndRemoveCollisions.
  - intros p. rewrite resolveSelfDetonation_spec.
    apply boardKeepsMarks_applyAt, in_callbacks.
  - intros guesses. apply boardKeepsMarks_applyAt, in_callbacks.
  - apply reaches_keepsMarks, reaches_clearMines.
  - intros player count mark w b' tl' w' Hwf Hdone.
    by eapply reaches_keepsMarks, reaches_collectPositions.
  - intros p1 p2 w q1 q2 b' w' Hwf (R & _)%playRound_preserves; [|done].
    by apply reaches_keepsMarks.
  - intros fuel p1 p2 w q1 q2 b' w' v Hwf (R & _)%runMainLoop_preserves; [|done].
    by apply reaches_keepsMarks.
  - intros b' col row s s' flag R Hflag Hs Hs' Hset Hgone.
    unfold namedFlags in Hflag. apply elem_of_cons in Hflag as [->|Hperm]; [done|].
    destruct (reaches_keepsMarks b b' R col row s Hs) as (s2 & Hs2 & Hkeeps).
    rewrite Hs' in Hs2. injection Hs2 as <-.
    rewrite (Hkeeps flag Hperm Hset) in Hgone. done.
Qed.

(** An instance of C8: after the round won by Player 1, in which the cell
    (2,1) was mined and guessed, the next [clearMines] keeps it [Disabled] and
    [WasGuessed]. *)
Lemma permanent_flags_persist_witness :
  ∃ s',
    getCellStatus (game.clearMines boardAfterWin) 2 1 = Some s' ∧
    keepsMarks 7 s'.
Proof.
  destruct (permanent_flags_persist boardAfterWin) as (_ & _ & _ & _ & Hclear & _).
  apply Hclear. reflexivity.
Defined.

(** ** C9: the dimensions of a board *)

(** C9. The constructor keeps a requested dimension that lies in [2,4] and
    replaces any other by 2 (so a requested width of 5 gives 2, not 4); the
    dimensions of a new board lie in [2,4]. No later operation changes them:
    not [safeCellAccess], whatever the callback, nor any board reached
    through the operations of the game, a whole round or a whole game. *)
Theorem board_dimensions_clamped (w h : N) :
  width (Board_new w h) = (if bool_decide (2 ≤ w ≤ 4) then w else 2) ∧
  height (Board_new w h) = (if bool_decide (2 ≤ h ≤ 4) then h else 2) ∧
  (2 ≤ width (Board_new w h) ≤ 4 ∧ 2 ≤ height (Board_new w h) ≤ 4) ∧
  width (Board_new 5 h) = 2 ∧
  (∀ b col row onValidCell,
     sameDimensions b (safeCellAccess b col row onValidCell)) ∧
  (∀ b b', reaches b b' → sameDimensions b b') ∧
  (∀ b, sameDimensions b (game.clearMines b)) ∧
  (∀ b p1 p2, sameDimensions b (game.detectAndRemoveCollisions p1 p2 b).2) ∧
  (∀ b p1 p2, sameDimensions b (game.resolveRound p1 p2 b).2) ∧
  (∀ p1 p2 world q1 q2 b' world',
     game.playRound p1 p2 (Board_new w h) world = Done (q1, q2, b', world') →
     sameDimensions (Board_new w h) b') ∧
  (∀ fuel p1 p2 world q1 q2 b' world' verdict,
     game.runMainLoop fuel p1 p2 (Board_new w h) world
       = Done (q1, q2, b', world', verdict) →
     sameDimensions (Board_new w h) b').
Proof.
  split_and!; try apply Board_new_dimensions; try apply Board_new_range.
  - intros b col row f. split;
      [apply width_safeCellAccess|apply height_safeCellAccess].
  - apply reaches_sameDimensions.
  - intros b. apply reaches_sameDimensions, reaches_clearMines.
  - intros b p1 p2.
    apply reaches_sameDimensions, reaches_detectAndRemoveCollisions.
  - intros b p1 p2. apply reaches_sameDimensions, reaches_resolveRound.
  - intros p1 p2 world q1 q2 b' world' (R & _)%playRound_preserves;
      [|apply board_wf_Board_new].
    by apply reaches_sameDimensions.
  - intros fuel p1 p2 world q1 q2 b' world' v (R & _)%runMainLoop_preserves;
      [|apply board_wf_Board_new].
    by apply reaches_sameDimensions.
Qed.

(** An instance of C9: a board asked for as 5x3 is 2x3, and still is after
    the game won by Player 1 has been played on a 3x3 board. *)
Lemma board_dimensions_clamped_witness :
  width (Board_new 5 3) = 2 ∧
  ∃ q1 q2 b' w' verdict,
    game.runMainLoop 1 (player1 2) (player2 2) (Board_new 3 3) winningSession
      = Done (q1, q2, b', w', verdict) ∧
    sameDimensions (Board_new 3 3) b'.
Proof.
  split; [apply (board_dimensions_clamped 5 3)|].
  eexists _, _, _, _, _. split; [vm_compute; reflexivity|].
  destruct (board_dimensions_clamped 3 3)
    as (_ & _ & _ & _ & _ & _ & _ & _ & _ & _ & Hgame).
  eapply (Hgame 1%nat (player1 2) (player2 2) winningSession).
  vm_compute. reflexivity.
Defined.

(** ** C3: collisions *)

Section collisions.
Implicit Types (b : Board) (m : Position) (mines : list Position).

Lemma length_bind_singletons {A B} (f : A → B) (l : list A) :
  length (l ≫= λ x, [f x]) = length l.
Proof.
  induction l as [|x l IH]; [done|]. rewrite bind_cons, length_app, IH. done.
Qed.

Lemma length_allCells b :
  length (allCells b) = (N.to_nat (width b) * N.to_nat (height b))%nat.
Proof.
  unfold allCells.
  assert (∀ (cols : list N),
    length (cols ≫= λ c, game.rowsOf b ≫= λ r, [mkPosition c r])
    = (length cols * length (game.rowsOf b))%nat) as Hlen.
  { induction cols as [|c cols IH]; [done|].
    rewrite bind_cons, length_app, IH, length_bind_singletons. done. }
  rewrite Hlen. unfold game.columnsOf, game.rowsOf, getWidth, getHeight.
  by rewrite !length_fmap, !length_seq.
Qed.

(** A duplicate-free list of positions of the board has at most 16 entries. *)
Lemma length_onBoard b mines :
  board_wf b → NoDup mines → Forall (onBoard b) mines →
  (length mines ≤ 16)%nat.
Proof.
  intros (Hw & Hh & _) Hnd Hon.
  assert (length mines ≤ length (allCells b))%nat as Hle.
  { apply submseteq_length, NoDup_submseteq; [done|].
    intros m Hm. apply elem_of_allCells.
    by rewrite Forall_forall in Hon; apply Hon. }
  rewrite length_allCells in Hle. nia.
Qed.

Lemma statusAt_marked f ps b m :
  (∀ s, f (f s) = f s) →
  board_wf b → onBoard b m → m ∈ ps →
  ∃ s, statusAt b m = Some s ∧ statusAt (applyAt f ps b) m = Some (f s).
Proof.
  intros Hidem Hwf Hon Hin. unfold statusAt, onBoard in *.
  destruct (getCellStatus_wf b (column m) (row m) Hwf) as [s Hs].
  exists s. split; [done|].
  rewrite getCellStatus_applyAt by done. rewrite Hon, Hs. cbn [andb].
  rewrite bool_decide_eq_true_2; [done|]. by destruct m.
Qed.

Lemma statusAt_unmarked f ps b m :
  (∀ s, f (f s) = f s) → m ∉ ps →
  statusAt (applyAt f ps b) m = statusAt b m.
Proof.
  intros Hidem Hin. unfold statusAt.
  rewrite getCellStatus_applyAt by done.
  rewrite (bool_decide_eq_false_2 (_ ∈ ps)); [by rewrite andb_false_r|].
  by destruct m.
Qed.

(** C3. For two duplicate-free lists of mines on the board,
    [detectAndRemoveCollisions] removes every position that is in both lists
    from both of them and keeps every other mine; the cell of each such
    position ends with [HadCollision] and [Disabled] set and [HasMine]
    cleared; each player's [remainingMines] goes down by exactly the number
    of their own mines removed, floored at 0; and both players lose the same
    number of mines. *)
Theorem collisions_are_symmetric (p1 p2 : Player) (b : Board) :
  board_wf b →
  NoDup (currentMines p1) → NoDup (currentMines p2) →
  Forall (onBoard b) (currentMines p1) → Forall (onBoard b) (currentMines p2) →
  remainingMines p1 < UINT_MODULUS → remainingMines p2 < UINT_MODULUS →
  let '(q1, q2, b') := game.detectAndRemoveCollisions p1 p2 b in
  let removed1 := (length (currentMines p1) - length (currentMines q1))%nat in
  let removed2 := (length (currentMines p2) - length (currentMines q2))%nat in
  (∀ m, m ∈ currentMines p1 → m ∈ currentMines p2 →
     (m ∉ currentMines q1) ∧ (m ∉ currentMines q2) ∧
     ∃ s, statusAt b' m = Some s ∧
          hasFlag s Flag.HadCollision = true ∧
          hasFlag s Flag.Disabled = true ∧
          hasFlag s Flag.HasMine = false) ∧
  (∀ m, m ∈ currentMines p1 → m ∉ currentMines p2 → m ∈ currentMines q1) ∧
  (∀ m, m ∈ currentMines p2 → m ∉ currentMines p1 → m ∈ currentMines q2) ∧
  remainingMines q1 = flooredDifference (remainingMines p1) removed1 ∧
  remainingMines q2 = flooredDifference (remainingMines p2) removed2 ∧
  removed1 = length (filter (λ m, m ∈ currentMines p2) (currentMines p1)) ∧
  removed1 = removed2.
Proof.
  intros Hwf Hnd1 Hnd2 Hon1 Hon2 Hrem1 Hrem2.
  rewrite detectAndRemoveCollisions_spec. cbv zeta.
  cbn [currentMines remainingMines].
  pose proof (length_onBoard b _ Hwf Hnd1 Hon1) as Hlen1.
  pose proof (length_onBoard b _ Hwf Hnd2 Hon2) as Hlen2.
  pose proof (length_filter_split (λ m, m ∈ currentMines p2) (currentMines p1)) as Hsplit1.
  pose proof (length_filter_split (λ m, m ∈ currentMines p1) (currentMines p2)) as Hsplit2.
  assert (filter (λ m, m ∈ currentMines p2) (currentMines p1)
          ≡ₚ filter (λ m, m ∈ currentMines p1) (currentMines p2)) as Hperm.
  { apply NoDup_Permutation; [by apply NoDup_filter..|].
    intros m. rewrite !list_elem_of_filter. tauto. }
  apply Permutation_length in Hperm.
  split_and!.
  - intros m Hm1 Hm2. split_and!.
    + rewrite list_elem_of_filter. tauto.
    + rewrite list_elem_of_filter. tauto.
    + destruct (statusAt_marked utils.markCollision
                  (filter (λ m, m ∈ currentMines p2) (currentMines p1)) b m)
        as (s & _ & ->).
      * apply markCollision_idempotent.
      * done.
      * by rewrite Forall_forall in Hon1; apply Hon1.
      * by apply list_elem_of_filter.
      * eexists. split; [done|]. destruct (markCollision_flags s) as (? & ? & ? & _).
        done.
  - intros m Hm1 Hm2. by apply list_elem_of_filter.
  - intros m Hm2 Hm1. by apply list_elem_of_filter.
  - apply subtractOrZero_floor; [done|]. apply to_uint_removed; [lia|].
    moduli. lia.
  - apply subtractOrZero_floor; [done|]. apply to_uint_removed; [lia|].
    moduli. lia.
  - lia.
  - lia.
Qed.

(** An instance of C3: three mines each on a 3x3 board, two of them on the
    same cells. *)
Lemma collisions_are_symmetric_witness :
  let after := game.detectAndRemoveCollisions collider1 collider2 collisionBoard in
  (∀ m, m ∈ currentMines collider1 → m ∈ currentMines collider2 →
     (m ∉ currentMines after.1.1) ∧ (m ∉ currentMines after.1.2) ∧
     ∃ s, statusAt after.2 m = Some s ∧
          hasFlag s Flag.HadCollision = true ∧
          hasFlag s Flag.Disabled = true ∧
          hasFlag s Flag.HasMine = false) ∧
  remainingMines after.1.1 = 1 ∧ remainingMines after.1.2 = 1.
Proof.
  cbv zeta.
  pose proof (collisions_are_symmetric collider1 collider2 collisionBoard) as H.
  specialize (H (board_wf_applyAt _ _ _ (board_wf_Board_new 3 3))).
  specialize (H ltac:(apply (bool_decide_unpack _); by vm_compute)).
  specialize (H ltac:(apply (bool_decide_unpack _); by vm_compute)).
  specialize (H ltac:(repeat constructor)).
  specialize (H ltac:(repeat constructor)).
  specialize (H ltac:(reflexivity) ltac:(reflexivity)).
  destruct (game.detectAndRemoveCollisions collider1 collider2 collisionBoard)
    as [[q1 q2] b'] eqn:Hafter.
  cbn [fst snd]. destruct H as (Hboth & _ & _ & Hrem1 & Hrem2 & _).
  split; [exact Hboth|].
  rewrite Hrem1, Hrem2.
  injection Hafter as <- <- <-. vm_compute. done.
Defined.

End collisions.

(** ** C7: clearing and re-placing mines *)

Section clearing.
Implicit Types (b : Board) (p : Position) (ps : list Position).

Lemma statusAt_applyAt f ps b p :
  (∀ s, f (f s) = f s) →
  statusAt (applyAt f ps b) p
  = if isValidPosition b (column p) (row p) && bool_decide (p ∈ ps)
    then f <$> statusAt b p else statusAt b p.
Proof.
  intros Hidem. unfold statusAt. rewrite getCellStatus_applyAt by done.
  by destruct p.
Qed.

Lemma statusAt_off_board b p s :
  ¬ onBoard b p → statusAt b p = Some s → s = Flag.None.
Proof.
  unfold onBoard, statusAt, getCellStatus. intros Hoff%not_true_is_false.
  rewrite Hoff. cbn [negb]. congruence.
Qed.

Lemma statusAt_clearMines b p :
  statusAt (game.clearMines b) p
  = if isValidPosition b (column p) (row p)
    then game.unmarkMine <$> statusAt b p else statusAt b p.
Proof.
  rewrite clearMines_spec, statusAt_applyAt by apply unmarkMine_idempotent.
  destruct (isValidPosition b (column p) (row p)) eqn:Hv; [|done].
  by rewrite bool_decide_eq_true_2 by by apply elem_of_allCells.
Qed.

Lemma isValidPosition_clearMines b c r :
  isValidPosition (game.clearMines b) c r = isValidPosition b c r.
Proof. rewrite clearMines_spec. apply isValidPosition_applyAt. Qed.

(** C7. Let [ps] be in-range positions that currently carry [HasMine].
    [clearMines] clears [HasMine] on every cell and changes none of the
    other four flags. Setting [HasMine] again at [ps] gives a board on which
    a cell carries [HasMine] exactly when its position is in [ps], the other
    flags still being those of the original board; so when [ps] lists all
    the mined cells, every named flag of every cell is as it was. Where the
    positions are distinct and still selectable, this re-placement is what
    [collectPositions] does when the player chooses them. *)
Theorem clearMines_round_trip (b : Board) (ps : list Position) :
  board_wf b →
  Forall (carriesMine b) ps →
  let cleared := game.clearMines b in
  let again := applyAt game.markMine ps cleared in
  (∀ p s, statusAt b p = Some s →
     ∃ s0 s1,
       statusAt cleared p = Some s0 ∧ statusAt again p = Some s1 ∧
       hasFlag s0 Flag.HasMine = false ∧
       (∀ flag, flag ∈ permanentFlags → hasFlag s0 flag = hasFlag s flag) ∧
       (∀ flag, flag ∈ permanentFlags → hasFlag s1 flag = hasFlag s flag) ∧
       hasFlag s1 Flag.HasMine = bool_decide (p ∈ ps) ∧
       ((∀ q, carriesMine b q → q ∈ ps) →
        ∀ flag, flag ∈ namedFlags → hasFlag s1 flag = hasFlag s flag)) ∧
  (∀ player,
     NoDup ps → Forall (λ p, selectable cleared p = true) ps →
     game.collectPositions player (Z.of_nat (length ps)) cleared true
       (choosing (isHuman player) ps)
     = Done (again, ps, choosing (isHuman player) [])).
Proof.
  intros Hwf Hps. cbv zeta. split.
  - intros p s Hs.
    assert (∀ t, (∀ flag, flag ∈ permanentFlags →
                    hasFlag (game.unmarkMine t) flag = hasFlag t flag) ∧
                 (∀ flag, flag ∈ permanentFlags →
                    hasFlag (game.markMine t) flag = hasFlag t flag)) as Hperm.
    { intros t. destruct (unmarkMine_flags t) as (_ & ? & ? & ? & ?).
      destruct (markMine_flags t) as (_ & ? & ? & ? & ?).
      split; intros flag [-> | [-> | [-> | ->]]]%elem_of_permanentFlags; done. }
    rewrite statusAt_applyAt, statusAt_clearMines, isValidPosition_clearMines
      by apply markMine_idempotent.
    destruct (isValidPosition b (column p) (row p)) eqn:Hv; cbn [andb].
    + rewrite Hs. cbn [fmap option_fmap option_map].
      destruct (unmarkMine_flags s) as (Hclear & _).
      destruct (decide (p ∈ ps)) as [Hin|Hout].
      * rewrite (bool_decide_eq_true_2 _ Hin). cbn [fmap option_fmap option_map].
        eexists _, _. split_and!; try done.
        -- intros flag Hflag. by apply Hperm.
        -- intros flag Hflag. etrans; [by apply Hperm|by apply Hperm].
        -- apply markMine_flags.
        -- intros _ flag [->|Hflag]%elem_of_cons.
           ++ destruct (markMine_flags (game.unmarkMine s)) as (-> & _).
              rewrite Forall_forall in Hps.
              destruct (Hps p Hin) as (_ & s' & Hs' & Hmine). congruence.
           ++ etrans; [by apply Hperm|by apply Hperm].
      * rewrite (bool_decide_eq_false_2 _ Hout).
        eexists _, _. split_and!; try done.
        -- intros flag Hflag. by apply Hperm.
        -- intros flag Hflag. by apply Hperm.
        -- intros Hall flag [->|Hflag]%elem_of_cons; [|by apply Hperm].
           rewrite Hclear. symmetry. apply not_true_is_false. intros Hmine.
           apply Hout, Hall. split; [done|]. by exists s.
    + assert (p ∉ ps) as Hout.
      { intros Hin. rewrite Forall_forall in Hps.
        destruct (Hps p Hin) as (Hon & _). unfold onBoard in Hon. congruence. }
      assert (s = Flag.None) as ->.
      { eapply statusAt_off_board; [|done]. unfold onBoard. congruence. }
      rewrite (bool_decide_eq_false_2 _ Hout).
      exists Flag.None, Flag.None. by split_and!.
  - intros player Hnd Hsel. unfold game.collectPositions.
    assert (board_wf (game.clearMines b)) as Hwf'
      by (eapply reaches_wf; [apply reaches_clearMines|done]).
    apply (collectLoop_choosing _ _ _ true _ [] ps); try done.
    + cbn [app]. unfold size_t_of_int.
      assert (length ps ≤ 16)%nat as Hlen.
      { apply (length_onBoard (game.clearMines b)); [done..|].
        eapply Forall_impl; [exact Hsel|]. intros q Hq.
        by apply selectable_spec in Hq as [? _]. }
      moduli. rewrite Z.mod_small by lia. lia.
    + unfold game.enoughFuel, choosing.
      destruct (isHuman player); cbn [stdin randoms length].
      * rewrite length_fmap. lia.
      * assert (∀ l : list Position, length l ≤ length (l ≫= drawn))%nat as Hle.
        { induction l as [|q l IHl]; [done|]. rewrite bind_cons, length_app.
          cbn. lia. }
        specialize (Hle ps). lia.
Qed.

(** An instance of C7: the board left by the round that Player 1 won. *)
Lemma clearMines_round_trip_witness :
  ∃ s0 s1,
    statusAt (game.clearMines boardAfterWin) (mkPosition 2 1) = Some s0 ∧
    statusAt (applyAt game.markMine minesAfterWin (game.clearMines boardAfterWin))
      (mkPosition 2 1) = Some s1 ∧
    hasFlag s0 Flag.HasMine = false ∧
    (∀ flag, flag ∈ permanentFlags → hasFlag s0 flag = hasFlag 7 flag) ∧
    (∀ flag, flag ∈ permanentFlags → hasFlag s1 flag = hasFlag 7 flag) ∧
    hasFlag s1 Flag.HasMine = bool_decide (mkPosition 2 1 ∈ minesAfterWin) ∧
    ((∀ q, carriesMine boardAfterWin q → q ∈ minesAfterWin) →
     ∀ flag, flag ∈ namedFlags → hasFlag s1 flag = hasFlag 7 flag).
Proof.
  apply (clearMines_round_trip boardAfterWin minesAfterWin).
  - unfold board_wf, boardAfterWin. cbn [width height grid].
    split_and!; try lia; [done|repeat constructor].
  - repeat constructor; try (by eexists; split; [reflexivity|reflexivity]).
  - reflexivity.
Defined.

End clearing.

(** ** C1: hits and self-detonation in one round *)

Section hits.
Implicit Types (b : Board) (m : Position).

(** C1, as stated, fails: in this round the mine of Player 1 at (0,0) is
    the only one of their mines that any guess matches. Player 2 guesses it,
    so it is counted as a hit; Player 1 guesses it too, and it is
    self-detonated all the same. [remainingMines] of Player 1 goes from 3 to
    1 for one mine. *)
Lemma hit_mine_is_also_self_detonated :
  let hit := mkPosition 0 0 in
  let '(q1, q2, b') := game.resolveRound duelist1 duelist2 duelBoard in
  hit ∈ currentMines duelist1 ∧ hit ∈ currentGuesses duelist2 ∧
  game.countHits duelist1 (currentGuesses duelist2) = 1%Z ∧
  (game.resolveSelfDetonation duelist1 duelBoard).1.1 = 1%Z ∧
  filter (λ m, m ∈ currentGuesses duelist1 ∨ m ∈ currentGuesses duelist2)
    (currentMines duelist1) = [hit] ∧
  (∃ s, statusAt b' hit = Some s ∧ hasFlag s Flag.SelfDetonated = true) ∧
  remainingMines duelist1 = 3 ∧ remainingMines q1 = 1 ∧
  game.playRound (player1 3) (player2 3) (Board_new 3 3) doubleLossSession
  = Done (q1, q2, b', mkWorld [] []).
Proof.
  cbv zeta. vm_compute. split_and!; try done.
  - apply list_elem_of_here.
  - apply list_elem_of_here.
  - by exists 13.
Qed.

(** C1, amended. [countHits] reads the defender's mine list and removes
    nothing from it; [resolveSelfDetonation] then runs over that same list.
    So the hits are counted on the lists as they are before self-detonation,
    and a mine is self-detonated exactly when it matches one of its owner's
    guesses, whether or not the opponent guessed it as well: it then leaves
    the list and its cell gets [SelfDetonated], while a mine that was only
    hit stays in the list. [remainingMines] is lowered by the number of hits
    and then by the number of self-detonations, each time floored at 0. *)
Theorem self_detonation_ignores_hits (p1 p2 : Player) (b : Board) :
  player_fits p1 → player_fits p2 →
  let '(q1, q2, b') := game.resolveRound p1 p2 b in
  let hitsOn1 := length (filter (λ g, g ∈ currentMines p1) (currentGuesses p2)) in
  let hitsOn2 := length (filter (λ g, g ∈ currentMines p2) (currentGuesses p1)) in
  let blown1 := length (filter (λ m, m ∈ currentGuesses p1) (currentMines p1)) in
  let blown2 := length (filter (λ m, m ∈ currentGuesses p2) (currentMines p2)) in
  game.countHits p1 (currentGuesses p2) = Z.of_nat hitsOn1 ∧
  game.countHits p2 (currentGuesses p1) = Z.of_nat hitsOn2 ∧
  currentMines q1 = filter (λ m, m ∉ currentGuesses p1) (currentMines p1) ∧
  currentMines q2 = filter (λ m, m ∉ currentGuesses p2) (currentMines p2) ∧
  remainingMines q1
    = flooredDifference (flooredDifference (remainingMines p1) hitsOn1) blown1 ∧
  remainingMines q2
    = flooredDifference (flooredDifference (remainingMines p2) hitsOn2) blown2 ∧
  (∀ m, m ∈ currentMines p1 → m ∈ currentGuesses p1 →
     (m ∉ currentMines q1) ∧
     (board_wf b → onBoard b m →
      ∃ s, statusAt b' m = Some s ∧ hasFlag s Flag.SelfDetonated = true)) ∧
  (∀ m, m ∈ currentMines p1 → m ∉ currentGuesses p1 → m ∈ currentMines q1).
Proof.
  intros (Hrem1 & Hmines1 & Hguesses1) (Hrem2 & Hmines2 & Hguesses2).
  rewrite resolveRound_spec. cbv zeta. cbn [currentMines remainingMines].
  unfold game.countHits. rewrite !countHitsFrom_spec, !Z.add_0_l.
  pose proof (length_filter (λ g, g ∈ currentMines p1) (currentGuesses p2)).
  pose proof (length_filter (λ g, g ∈ currentMines p2) (currentGuesses p1)).
  pose proof (length_filter (λ m, m ∈ currentGuesses p1) (currentMines p1)).
  pose proof (length_filter (λ m, m ∈ currentGuesses p2) (currentMines p2)).
  assert (∀ rem n, rem < UINT_MODULUS → N.of_nat n < UINT_MODULUS →
            game.subtractOrZero rem (Z.of_nat n) = flooredDifference rem n) as Hfloor.
  { intros rem n Hrem Hn. apply subtractOrZero_floor; [done|by apply to_uint_small]. }
  split_and!; try done.
  - rewrite !Hfloor; [done|lia|lia|apply subtractOrZero_range|lia].
  - rewrite !Hfloor; [done|lia|lia|apply subtractOrZero_range|lia].
  - intros m Hmine Hguess. split.
    + rewrite list_elem_of_filter. tauto.
    + intros Hwf Hon.
      set (blown1 := filter (λ m, m ∈ currentGuesses p1) (currentMines p1)).
      set (blown2 := filter (λ m, m ∈ currentGuesses p2) (currentMines p2)).
      destruct (statusAt_marked game.markSelfDetonation blown1 b m)
        as (s & _ & Hs1);
        [apply markSelfDetonation_idempotent|done|done
        |by apply list_elem_of_filter|].
      set (b1 := applyAt game.markSelfDetonation blown1 b) in *.
      assert (reaches b1
        (applyAt game.markGuessed (currentGuesses p2)
           (applyAt game.markGuessed (currentGuesses p1)
              (applyAt game.markSelfDetonation blown2 b1)))) as R.
      { do 3 (apply reaches_mark; [apply in_callbacks|]). apply reaches_here. }
      destruct (reaches_keepsMarks _ _ R (column m) (row m) _ Hs1)
        as (s' & Hs' & Hkeeps).
      exists s'. split; [done|]. apply Hkeeps.
      * apply elem_of_permanentFlags. tauto.
      * apply markSelfDetonation_flags.
  - intros m Hmine Hguess. by apply list_elem_of_filter.
Qed.

(** An instance of the amended C1: the round of [duelist1] and [duelist2]. *)
Lemma self_detonation_ignores_hits_witness :
  let after := game.resolveRound duelist1 duelist2 duelBoard in
  remainingMines after.1.1 = flooredDifference (flooredDifference 3 1) 1 ∧
  remainingMines after.1.2 = flooredDifference (flooredDifference 3 0) 0.
Proof.
  cbv zeta.
  pose proof (self_detonation_ignores_hits duelist1 duelist2 duelBoard) as H.
  specialize (H ltac:(by split_and!) ltac:(by split_and!)).
  destruct (game.resolveRound duelist1 duelist2 duelBoard) as [[q1 q2] b'].
  cbn [fst snd]. destruct H as (_ & _ & _ & _ & Hrem1 & Hrem2 & _).
  split; [exact Hrem1|exact Hrem2].
Defined.

End hits.

(** ** The scenarios of the specification, run on the model *)

Section scenarios.

(** Both players mine the same cell of a 2x2 board: both counters go from 1
    to 0 and the draw is declared before any guess. *)
Example scenario_collision_draw :
  game.runMainLoop 1 (player1 1) (player2 1) (Board_new 2 2) collisionSession
  = Done (player1 0, player2 0, mkBoard 2 2 [[0; 0]; [0; 17]], mkWorld [] [],
          Some game.DrawNoMines).
Proof. vm_compute. reflexivity. Qed.

(** Player 1 finds both mines of Player 2, who finds none. *)
Example scenario_player1_wins :
  ∃ q1 q2 b' w',
    game.runMainLoop 1 (player1 2) (player2 2) (Board_new 3 3) winningSession
      = Done (q1, q2, b', w', Some (game.WinTheGame "Player 1")) ∧
    remainingMines q1 = 2 ∧ remainingMines q2 = 0.
Proof. eexists _, _, _, _. split; [vm_compute; reflexivity|done]. Qed.

(** Player 1 guesses the cell of their own mine: the mine is gone, the cell
    is marked [SelfDetonated], and Player 2 wins. *)
Example scenario_self_detonation :
  ∃ q1 q2 b' w',
    game.runMainLoop 1 (player1 1) (player2 1) (Board_new 3 3) selfDetonationSession
      = Done (q1, q2, b', w', Some (game.WinTheGame "Player 2")) ∧
    remainingMines q1 = 0 ∧ remainingMines q2 = 1 ∧
    getCellStatus b' 0 0 = Some 13 ∧
    hasFlag 13 Flag.SelfDetonated = true.
Proof. eexists _, _, _, _. split; [vm_compute; reflexivity|done]. Qed.

End scenarios.

(** * Further properties of the code *)

(** ** The flag operators and [hasFlag] *)

Section flag_algebra.
Implicit Types (s f g : CellStatusFlags) (m : N).

Lemma land_eq_bits s f :
  N.land s f = f ↔ ∀ m, N.testbit f m = true → N.testbit s m = true.
Proof.
  split.
  - intros Heq m Hm. rewrite <-Heq, N.land_spec in Hm.
    by apply andb_true_iff in Hm as [? _].
  - intros Hbits. apply N.bits_inj. intros m. rewrite N.land_spec.
    destruct (N.testbit f m) eqn:Hm; [|apply andb_false_r].
    by rewrite (Hbits m Hm).
Qed.

Lemma hasFlag_bits s f :
  f ≠ Flag.None →
  hasFlag s f = true ↔ ∀ m, N.testbit f m = true → N.testbit s m = true.
Proof.
  intros Hf. unfold hasFlag.
  destruct (N.eqb_spec f Flag.None) as [|_]; [done|].
  by rewrite N.eqb_eq, land_eq_bits.
Qed.

Lemma flag_or_ne_None f g : f ≠ Flag.None → flag_or f g ≠ Flag.None.
Proof.
  unfold flag_or, Flag.None. intros Hf Hor. apply N.lor_eq_0_iff in Hor as [? _].
  done.
Qed.

Lemma testbit_uint_high f m :
  f < UINT_MODULUS → UINT_BITS ≤ m → N.testbit f m = false.
Proof.
  intros Hf Hm. destruct (N.eq_dec f 0) as [->|Hne]; [apply N.bits_0|].
  apply N.bits_above_log2.
  apply N.lt_le_trans with UINT_BITS; [|done].
  apply N.log2_lt_pow2; [lia|done].
Qed.

(** X1. [hasFlag] with the zero flag asks whether the status is exactly
    zero; with any other flag it asks whether all the bits of the flag are
    in the status. Hence a flag built with [operator|] from two non-zero
    flags is held exactly when both are, a flag that has just been added
    with [operator|] is held, and the zero status holds no non-zero flag. *)
Theorem hasFlag_union (s f g : CellStatusFlags) :
  (hasFlag s Flag.None = true ↔ s = Flag.None) ∧
  (f ≠ Flag.None → g ≠ Flag.None →
   hasFlag s (flag_or f g) = hasFlag s f && hasFlag s g) ∧
  (f ≠ Flag.None → hasFlag (flag_or s f) f = true) ∧
  (f ≠ Flag.None → hasFlag Flag.None f = false).
Proof.
  split_and!.
  - unfold hasFlag. cbn [N.eqb Flag.None]. apply N.eqb_eq.
  - intros Hf Hg. apply eq_true_iff_eq.
    rewrite andb_true_iff, !hasFlag_bits by (done || by apply flag_or_ne_None).
    unfold flag_or. split.
    + intros Hall. split; intros m Hm; apply Hall; rewrite N.lor_spec, Hm;
        [done|apply orb_true_r].
    + intros [Hf' Hg'] m Hm. rewrite N.lor_spec in Hm.
      apply orb_true_iff in Hm as [Hm|Hm]; auto.
  - intros Hf. apply hasFlag_bits; [done|]. intros m Hm.
    unfold flag_or. rewrite N.lor_spec, Hm. apply orb_true_r.
  - intros Hf. unfold hasFlag.
    destruct (N.eqb_spec f Flag.None) as [|_]; [done|].
    apply N.eqb_neq. by rewrite N.land_0_l.
Qed.

Lemma hasFlag_union_witness :
  hasFlag 21 (flag_or Flag.Disabled Flag.WasGuessed)
  = hasFlag 21 Flag.Disabled && hasFlag 21 Flag.WasGuessed.
Proof. by apply (hasFlag_union 21 Flag.Disabled Flag.WasGuessed). Defined.

(** X2. Clearing with [status & ~flag], for 32-bit flags: the cleared flag
    is no longer held, and every flag that shares no bit with it is held
    afterwards exactly when it was held before. *)
Theorem clear_by_complement (s f g : CellStatusFlags) :
  f < UINT_MODULUS → g < UINT_MODULUS →
  (f ≠ Flag.None → hasFlag (flag_and s (flag_not f)) f = false) ∧
  (g ≠ Flag.None → N.land f g = 0 →
   hasFlag (flag_and s (flag_not f)) g = hasFlag s g).
Proof.
  intros Hf Hg.
  assert (∀ m, N.testbit (flag_and s (flag_not f)) m
               = N.testbit s m && negb (N.testbit f m) && (m <? UINT_BITS)) as Hbit.
  { intros m. unfold flag_and, flag_not. rewrite N.land_spec.
    destruct (N.ltb_spec m UINT_BITS) as [Hlt|Hge].
    - rewrite N.lnot_spec_low by done. by rewrite andb_true_r.
    - rewrite N.lnot_spec_high by done.
      rewrite (testbit_uint_high f m) by done. by rewrite !andb_false_r. }
  split.
  - intros Hne. apply not_true_is_false. intros Hhas.
    rewrite hasFlag_bits in Hhas by done.
    destruct (N.eq_dec f 0) as [|Hne0]; [done|].
    pose proof (N.bit_log2 f Hne0) as Htop.
    specialize (Hhas _ Htop). rewrite Hbit, Htop in Hhas.
    by rewrite andb_false_r in Hhas.
  - intros Hne Hdisjoint. apply eq_true_iff_eq. rewrite !hasFlag_bits by done.
    split; intros Hall m Hm.
    + specialize (Hall m Hm). rewrite Hbit in Hall.
      by apply andb_true_iff in Hall as [[? _]%andb_true_iff _].
    + rewrite Hbit, (Hall m Hm).
      assert (N.testbit f m = false) as ->.
      { apply not_true_is_false. intros Hfm.
        assert (N.testbit (N.land f g) m = true) as Hboth
          by by rewrite N.land_spec, Hfm, Hm.
        by rewrite Hdisjoint, N.bits_0 in Hboth. }
      destruct (N.ltb_spec m UINT_BITS) as [|Hge]; [done|].
      by rewrite (testbit_uint_high g m) in Hm.
Qed.

Lemma clear_by_complement_witness :
  hasFlag (flag_and 7 (flag_not Flag.HasMine)) Flag.HasMine = false ∧
  hasFlag (flag_and 7 (flag_not Flag.HasMine)) (flag_or Flag.Disabled Flag.WasGuessed)
  = hasFlag 7 (flag_or Flag.Disabled Flag.WasGuessed).
Proof.
  destruct (clear_by_complement 7 Flag.HasMine (flag_or Flag.Disabled Flag.WasGuessed))
    as [Hgone Hkept]; [done|done|].
  split; [by apply Hgone|by apply Hkept].
Defined.

End flag_algebra.

(** ** What the display shows *)

Section display.
Implicit Types (s : CellStatusFlags) (b : Board).

Ltac symbol_cases :=
  unfold getSymbolForStatus; flag_bits;
  repeat match goal with
         | |- context [N.testbit ?s ?k] => destruct (N.testbit s k) eqn:?
         end; try done.

(** X3. The symbol of a cell that was not guessed does not depend on
    [HasMine]: setting or clearing the mine leaves the symbol as it is, so
    the display does not give away where the unguessed mines are. *)
Theorem symbol_hides_unguessed_mine (s : CellStatusFlags) :
  hasFlag s Flag.WasGuessed = false →
  getSymbolForStatus (game.markMine s) = getSymbolForStatus s ∧
  getSymbolForStatus (game.unmarkMine s) = getSymbolForStatus s.
Proof. intros Hs. split; revert Hs; symbol_cases. Qed.

Lemma symbol_hides_unguessed_mine_witness :
  getSymbolForStatus (game.markMine 0) = getSymbolForStatus 0 ∧
  getSymbolForStatus (game.unmarkMine 0) = getSymbolForStatus 0.
Proof. by apply (symbol_hides_unguessed_mine 0). Defined.

(** X4. What the markings look like: a self-detonated cell shows "#"; a
    collision cell shows "*" unless it already was self-detonated; a guessed
    cell shows "G" if it carries a mine and "X" if not, unless it shows "#"
    or "*"; and no disabled cell shows the empty symbol ".". *)
Theorem symbols_of_markings (s : CellStatusFlags) :
  getSymbolForStatus (game.markSelfDetonation s) = "#" ∧
  getSymbolForStatus (utils.markCollision s)
    = (if hasFlag s Flag.SelfDetonated then "#" else "*") ∧
  getSymbolForStatus (game.markGuessed s)
    = (if hasFlag s Flag.SelfDetonated then "#"
       else if hasFlag s Flag.HadCollision then "*"
       else if hasFlag s Flag.HasMine then "G" else "X") ∧
  (hasFlag s Flag.Disabled = true → getSymbolForStatus s ≠ ".").
Proof.
  split_and!.
  - symbol_cases.
  - symbol_cases.
  - destruct (markGuessed_flags s) as (Hd & Hg & Hm & Hsd & Hc).
    unfold getSymbolForStatus. rewrite Hd, Hg, Hm, Hsd, Hc.
    by destruct (hasFlag s Flag.SelfDetonated), (hasFlag s Flag.HadCollision),
      (hasFlag s Flag.HasMine).
  - intros Hd. unfold getSymbolForStatus. rewrite Hd.
    by destruct (hasFlag s Flag.SelfDetonated), (hasFlag s Flag.HadCollision),
      (hasFlag s Flag.WasGuessed && hasFlag s Flag.HasMine).
Qed.

Lemma symbols_of_markings_witness : getSymbolForStatus 5 ≠ ".".
Proof. by apply (symbols_of_markings 5). Defined.

End display.

(** ** Printing the board *)

Section printing.
Implicit Types (b : Board) (p : Position) (ps : list Position).

Lemma symbol_markMine s :
  hasFlag s Flag.WasGuessed = false →
  getSymbolForStatus (game.markMine s) = getSymbolForStatus s.
Proof.
  unfold getSymbolForStatus. flag_bits. intros ->.
  by destruct (N.testbit s 3), (N.testbit s 4), (N.testbit s 0).
Qed.

Lemma printCells_ext b b' r cols :
  (∀ c, c ∈ cols →
     getSymbolForStatus <$> getCellStatus b' c r
     = getSymbolForStatus <$> getCellStatus b c r) →
  printCells b' r cols = printCells b r cols.
Proof.
  induction cols as [|c cols IH]; intros Hsame; [done|].
  cbn [printCells]. rewrite IH by (intros c' Hc'; apply Hsame; by right).
  specialize (Hsame c ltac:(by left)).
  destruct (getCellStatus b' c r) as [s'|], (getCellStatus b c r) as [s|];
    cbn in *; try done.
  by injection Hsame as ->.
Qed.

Lemma printRows_ext b b' rows :
  game.columnsOf b' = game.columnsOf b →
  (∀ c r,
     getSymbolForStatus <$> getCellStatus b' c r
     = getSymbolForStatus <$> getCellStatus b c r) →
  printRows b' rows = printRows b rows.
Proof.
  intros Hcols Hsame. induction rows as [|r rows IH]; [done|].
  cbn [printRows]. rewrite IH, Hcols.
  by rewrite (printCells_ext b b') by (intros c _; apply Hsame).
Qed.

Lemma printCells_wf b r cols : board_wf b → is_Some (printCells b r cols).
Proof.
  intros Hwf. induction cols as [|c cols [rest IH]]; [by eexists|].
  cbn [printCells]. destruct (getCellStatus_wf b c r Hwf) as [s ->].
  rewrite IH. by eexists.
Qed.

Lemma printRows_wf b rows : board_wf b → is_Some (printRows b rows).
Proof.
  intros Hwf. induction rows as [|r rows [rest IH]]; [by eexists|].
  cbn [printRows].
  destruct (printCells_wf b r (game.columnsOf b) Hwf) as [cells ->].
  rewrite IH. by eexists.
Qed.

(** X5. Printing a board whose grid has the declared dimensions never
    throws, and the printed text is the same before and after mines are
    placed on cells that were not guessed: the board can be shown to both
    players without giving the placement away. *)
Theorem printBoard_hides_placement (b : Board) (ps : list Position) :
  board_wf b →
  (∀ p s, p ∈ ps → statusAt b p = Some s → hasFlag s Flag.WasGuessed = false) →
  is_Some (printBoard b) ∧
  printBoard (applyAt game.markMine ps b) = printBoard b.
Proof.
  intros Hwf Hps. split.
  - unfold printBoard. destruct (printRows_wf b (game.rowsOf b) Hwf) as [rows ->].
    by eexists.
  - unfold printBoard, game.rowsOf, game.columnsOf, getWidth, getHeight.
    rewrite width_applyAt, height_applyAt.
    rewrite (printRows_ext b); [done| |].
    + unfold game.columnsOf, getWidth. by rewrite width_applyAt.
    + intros c r. rewrite getCellStatus_applyAt by apply markMine_idempotent.
      destruct (isValidPosition b c r && bool_decide (mkPosition c r ∈ ps)) eqn:Hin;
        [|done].
      apply andb_true_iff in Hin as [_ Hin%bool_decide_eq_true].
      destruct (getCellStatus b c r) as [s|] eqn:Hs; [|done]. cbn.
      f_equal. apply symbol_markMine. by apply (Hps (mkPosition c r)).
Qed.

(** An instance of X5: the mines of the first scenario on a new board. *)
Lemma printBoard_hides_placement_witness :
  is_Some (printBoard (Board_new 3 3)) ∧
  printBoard (applyAt game.markMine minesAfterWin (Board_new 3 3))
  = printBoard (Board_new 3 3).
Proof.
  apply (printBoard_hides_placement (Board_new 3 3) minesAfterWin).
  - apply board_wf_Board_new.
  - intros p s _ Hs. unfold statusAt in Hs.
    rewrite getCellStatus_Board_new in Hs. by injection Hs as <-.
Defined.

End printing.

(** ** A new board, and one write to it *)

Section fresh.
Implicit Types (b : Board) (c r : N).

Lemma isDisabled_getCellStatus b c r :
  isDisabled b c r = (λ s, hasFlag s Flag.Disabled) <$> getCellStatus b c r.
Proof.
  unfold isDisabled, getCellStatus.
  destruct (isValidPosition b c r); cbn [negb]; [|done].
  by destruct (grid_at (grid b) c r).
Qed.

(** X6. A board as the constructor leaves it: the grid has the clamped
    dimensions, every cell has the zero status, nothing is disabled, and so
    every cell can be chosen: there are [width * height] selectable cells. *)
Theorem Board_new_is_empty (w h : N) :
  let b := Board_new w h in
  board_wf b ∧
  (∀ c r, getCellStatus b c r = Some Flag.None ∧ isDisabled b c r = Some false) ∧
  selectableCells b = allCells b ∧
  length (selectableCells b) = N.to_nat (width b * height b).
Proof.
  cbv zeta.
  assert (∀ c r, isDisabled (Board_new w h) c r = Some false) as Hdis.
  { intros c r. by rewrite isDisabled_getCellStatus, getCellStatus_Board_new. }
  assert (selectableCells (Board_new w h) = allCells (Board_new w h)) as Hall.
  { unfold selectableCells.
    assert (∀ l : list Position,
      Forall (onBoard (Board_new w h)) l →
      filter (λ p, selectable (Board_new w h) p = true) l = l) as Hfilter.
    { induction l as [|p l IH]; intros Hl; [done|].
      apply Forall_cons in Hl as [Hp Hl].
      rewrite filter_cons, IH by done.
      rewrite decide_True; [done|].
      apply selectable_spec. split; [done|apply Hdis]. }
    apply Hfilter, Forall_forall. intros p. apply elem_of_allCells. }
  split_and!.
  - apply board_wf_Board_new.
  - intros c r. split; [apply getCellStatus_Board_new|apply Hdis].
  - done.
  - rewrite Hall, length_allCells. lia.
Qed.

(** X7. One call of [safeCellAccess] at a position in range, on a board
    whose grid has the declared dimensions: the cell read back is the
    callback applied to what was there, every other cell reads as before,
    and the grid keeps its dimensions. *)
Theorem safeCellAccess_writes_one_cell (b : Board) (c r : N)
    (onValidCell : CellStatusFlags → CellStatusFlags) :
  board_wf b → isValidPosition b c r = true →
  ∃ s,
    getCellStatus b c r = Some s ∧
    getCellStatus (safeCellAccess b c r onValidCell) c r = Some (onValidCell s) ∧
    (∀ c' r', (c', r') ≠ (c, r) →
       getCellStatus (safeCellAccess b c r onValidCell) c' r'
       = getCellStatus b c' r') ∧
    board_wf (safeCellAccess b c r onValidCell).
Proof.
  intros Hwf Hv. destruct (getCellStatus_wf b c r Hwf) as [s Hs].
  exists s. split_and!; [done| | |by apply board_wf_safeCellAccess].
  - rewrite getCellStatus_safeCellAccess, Hv, Hs.
    by rewrite bool_decide_eq_true_2.
  - intros c' r' Hne. rewrite getCellStatus_safeCellAccess.
    rewrite bool_decide_eq_false_2; [by rewrite andb_false_r|].
    intros [<- <-]. done.
Qed.

Lemma safeCellAccess_writes_one_cell_witness :
  ∃ s,
    getCellStatus (Board_new 2 2) 1 0 = Some s ∧
    getCellStatus (safeCellAccess (Board_new 2 2) 1 0 game.markGuessed) 1 0
      = Some (game.markGuessed s) ∧
    (∀ c' r', (c', r') ≠ (1, 0) →
       getCellStatus (safeCellAccess (Board_new 2 2) 1 0 game.markGuessed) c' r'
       = getCellStatus (Board_new 2 2) c' r') ∧
    board_wf (safeCellAccess (Board_new 2 2) 1 0 game.markGuessed).
Proof.
  apply (safeCellAccess_writes_one_cell (Board_new 2 2) 1 0 game.markGuessed).
  - apply board_wf_Board_new.
  - reflexivity.
Defined.

End fresh.

(** ** The two sources of positions *)

Section sources.
Implicit Types (b : Board) (p pos : Position).

Lemma selectableCells_nil b p : selectableCells b = [] → selectable b p = false.
Proof.
  intros Hnil. apply not_true_is_false. intros Hsel.
  apply elem_of_selectableCells in Hsel. rewrite Hnil in Hsel.
  by apply elem_of_nil in Hsel.
Qed.



(** X9. On a board whose grid has the declared dimensions,
    [generateRandomPosition] never throws; the position it returns is in
    range and not disabled, and it has used an even, non-zero number of
    values of [rand()]. When no cell can be chosen it never returns, however
    many values it draws. *)
Theorem generateRandomPosition_returns_selectable (b : Board) (rnd : list Z) :
  board_wf b →
  utils.generateRandomPosition b rnd ≠ Threw ∧
  (∀ pos rest,
     utils.generateRandomPosition b rnd = Done (pos, rest) →
     selectable b pos = true ∧
     ∃ attempts, (0 < attempts)%nat ∧ rest = drop (2 * attempts) rnd ∧
                 (2 * attempts ≤ length rnd)%nat) ∧
  (selectableCells b = [] → utils.generateRandomPosition b rnd = Starved).
Proof.
  intros Hwf. split_and!.
  - by apply generateRandomPosition_wf.
  - intros pos rest Hdone. split; [by eapply generateRandomPosition_Done|].
    revert Hdone. induction rnd as [|r1|r1 r2 rnd IH] using pairs_ind;
      cbn [utils.generateRandomPosition]; try done.
    destruct (isDisabled b _ _) as [[|]|]; [|intros [= <- <-]|done].
    + intros (attempts & Hpos & -> & Hlen)%IH. exists (S attempts).
      split_and!; [lia| |cbn [length]; lia].
      by replace (2 * S attempts)%nat with (S (S (2 * attempts))) by lia.
    + exists 1%nat. split_and!; [lia|done|cbn [length]; lia].
  - intros Hnone.
    induction rnd as [|r1|r1 r2 rnd IH] using pairs_ind;
      cbn [utils.generateRandomPosition]; try done.
    destruct (isDisabled b _ _) as [[|]|] eqn:Hd; [done| |].
    + assert (selectable b
                (mkPosition (to_uint r1 mod getWidth b) (to_uint r2 mod getHeight b))
              = true) as Hsel; [|by rewrite selectableCells_nil in Hsel].
      apply selectable_spec. split; [|done].
      destruct Hwf as (Hw & Hh & _). apply isValidPosition_lt. cbn [column row].
      unfold getWidth, getHeight. split; apply N.mod_lt; lia.
    + by destruct (isDisabled_wf b (to_uint r1 mod getWidth b)
                     (to_uint r2 mod getHeight b) Hwf) as [d Hd'];
        rewrite Hd in Hd'.
Qed.

(** An instance of X9: the CPU draws the disabled cell (0,0) first. *)
Lemma generateRandomPosition_returns_selectable_witness :
  let b := game.disableGuessedPositions [mkPosition 0 0] (Board_new 2 2) in
  selectable b (mkPosition 1 0) = true ∧
  ∃ attempts, (0 < attempts)%nat ∧
              [7%Z] = drop (2 * attempts) [4%Z; 6%Z; 5%Z; 8%Z; 7%Z] ∧
              (2 * attempts ≤ 5)%nat.
Proof.
  cbv zeta.
  destruct (generateRandomPosition_returns_selectable
              (game.disableGuessedPositions [mkPosition 0 0] (Board_new 2 2))
              [4%Z; 6%Z; 5%Z; 8%Z; 7%Z]) as (_ & Hdone & _).
  - apply board_wf_applyAt, board_wf_Board_new.
  - by apply Hdone.
Defined.

End sources.

(** ** What a finished collection guarantees *)

Section collected.
Implicit Types (b : Board) (p : Position) (w : World).

Lemma isDisabled_applyAt_markMine ps b c r :
  isDisabled (applyAt game.markMine ps b) c r = isDisabled b c r.
Proof.
  revert b. induction ps as [|p ps IH]; intros b; [done|].
  change (applyAt game.markMine (p :: ps) b)
    with (applyAt game.markMine ps
            (safeCellAccess b (column p) (row p) game.markMine)).
  rewrite IH. apply isDisabled_safeCellAccess. intros s. apply markMine_flags.
Qed.

(** X10. When [collectPositions] returns, on a board whose grid has the
    declared dimensions, the list it built holds exactly [count] positions
    (as a [size_t]), all different, each in range and not disabled; the
    list starts from empty whatever the player held before. With
    [markMinesOnBoard] the board is the old one with [HasMine] set at these
    positions; without it the board is untouched. *)
Theorem collectPositions_postcondition (player : Player) (count : Z) (b : Board)
    (mark : bool) (w : World) (b' : Board) (chosen : list Position) (w' : World) :
  board_wf b →
  game.collectPositions player count b mark w = Done (b', chosen, w') →
  N.of_nat (length chosen) = size_t_of_int count ∧
  NoDup chosen ∧
  Forall (λ p, selectable b p = true) chosen ∧
  b' = (if mark then applyAt game.markMine chosen b else b).
Proof.
  intros Hwf (added & -> & -> & _ & Hexact & Hnd & Hall)%collectLoop_Done;
    [|done].
  cbn [app length] in *. split_and!; [|by apply Hnd, NoDup_nil_2|done|done].
  apply Hexact. lia.
Qed.

(** An instance of X10: Player 1 places three mines on a 3x3 board. *)
Lemma collectPositions_postcondition_witness :
  ∃ b' chosen,
    game.collectPositions (player1 3) 3 (Board_new 3 3) true
      (mkWorld [Coords 1 1; Coords 1 1; Coords 1 2; BadInput; Coords 2 1] [])
      = Done (b', chosen, mkWorld [] []) ∧
    N.of_nat (length chosen) = size_t_of_int 3 ∧
    NoDup chosen ∧
    Forall (λ p, selectable (Board_new 3 3) p = true) chosen ∧
    b' = applyAt game.markMine chosen (Board_new 3 3).
Proof.
  eexists _, _. split; [vm_compute; reflexivity|].
  apply (collectPositions_postcondition (player1 3) 3 (Board_new 3 3) true
           (mkWorld [Coords 1 1; Coords 1 1; Coords 1 2; BadInput; Coords 2 1] [])
           _ _ (mkWorld [] [])).
  - apply board_wf_Board_new.
  - vm_compute. reflexivity.
Defined.

(** X11. [placeMines] and [collectGuessesFromPlayer] change one list of the
    player and nothing else. After [placeMines] every listed mine has
    [HasMine] on its cell and no cell has changed its [Disabled] state;
    [collectGuessesFromPlayer] leaves the board exactly as it was. *)
Theorem placing_and_guessing_update_one_list (player : Player) (count : Z)
    (b : Board) (w : World) (player' : Player) (b' : Board) (w' : World) :
  board_wf b →
  (game.placeMines player count b w = Done (player', b', w') →
   player' = set_currentMines player (currentMines player') ∧
   (∀ m, m ∈ currentMines player' →
      ∃ s, statusAt b' m = Some s ∧ hasFlag s Flag.HasMine = true) ∧
   (∀ c r, isDisabled b' c r = isDisabled b c r)) ∧
  (game.collectGuessesFromPlayer player count b w = Done (player', b', w') →
   player' = set_currentGuesses player (currentGuesses player') ∧ b' = b).
Proof.
  intros Hwf. split.
  - unfold game.placeMines.
    intros ([[b1 mines] w1] & Hdone & [= <- <- <-])%bind_Done.
    apply collectLoop_Done in Hdone as (added & -> & -> & _ & _ & _ & Hall);
      [|done].
    cbn [app currentMines set_currentMines]. split_and!; [done| |].
    + intros m Hm. rewrite Forall_forall in Hall.
      destruct (proj1 (selectable_spec b m) (Hall m Hm)) as [Hon _].
      destruct (statusAt_marked game.markMine added b m) as (s & _ & ->);
        [apply markMine_idempotent|done..|].
      eexists. split; [done|]. apply markMine_flags.
    + intros c r. apply isDisabled_applyAt_markMine.
  - unfold game.collectGuessesFromPlayer.
    intros ([[b1 guesses] w1] & Hdone & [= <- <- <-])%bind_Done.
    by apply collectLoop_Done in Hdone as (added & -> & -> & _).
Qed.

(** An instance of X11: Player 1 places three mines on a 3x3 board. *)
Lemma placing_and_guessing_update_one_list_witness :
  ∃ s, statusAt (applyAt game.markMine
                   [mkPosition 0 0; mkPosition 0 1; mkPosition 1 0] (Board_new 3 3))
         (mkPosition 0 1)
       = Some s ∧ hasFlag s Flag.HasMine = true.
Proof.
  destruct (placing_and_guessing_update_one_list (player1 3) 3 (Board_new 3 3)
              (mkWorld [Coords 1 1; Coords 1 2; Coords 2 1] [])
              (set_currentMines (player1 3)
                 [mkPosition 0 0; mkPosition 0 1; mkPosition 1 0])
              (applyAt game.markMine
                 [mkPosition 0 0; mkPosition 0 1; mkPosition 1 0] (Board_new 3 3))
              (mkWorld [] [])) as [Hplace _].
  - apply board_wf_Board_new.
  - destruct Hplace as (_ & Hmined & _); [vm_compute; reflexivity|].
    apply Hmined. cbn [currentMines set_currentMines].
    apply list_elem_of_further, list_elem_of_here.
Defined.

End collected.

(** ** Collisions, hits and self-detonations, list by list *)

Section lists.
Implicit Types (b : Board) (m : Position) (own opp mines guesses : list Position).

Lemma filter_all (P : Position → Prop) `{∀ x, Decision (P x)} (l : list Position) :
  (∀ x, x ∈ l → P x) → filter P l = l.
Proof.
  induction l as [|x l IH]; intros Hall; [done|].
  rewrite filter_cons, decide_True by (apply Hall; left).
  f_equal. apply IH. intros y Hy. apply Hall. by right.
Qed.

Lemma filter_none (P : Position → Prop) `{∀ x, Decision (P x)} (l : list Position) :
  (∀ x, x ∈ l → ¬ P x) → filter P l = [].
Proof.
  induction l as [|x l IH]; intros Hnone; [done|].
  rewrite filter_cons, decide_False by (apply Hnone; left).
  apply IH. intros y Hy. apply Hnone. by right.
Qed.

(** X12. [removeCollidingMines] splits the own mines in two, keeping their
    order: the mines that are also the opponent's, recorded as collisions
    and marked on the board, and the others, which are the result. The
    result is the list that [keepNonCollidingMines] computes without
    touching the board. *)
Theorem removeCollidingMines_partitions (own opp : list Position) (b : Board) :
  let '(result, collisions, b') := utils.removeCollidingMines own opp [] b [] in
  result = utils.keepNonCollidingMines own opp [] ∧
  result ++ collisions ≡ₚ own ∧
  (∀ m, m ∈ result ↔ m ∈ own ∧ m ∉ opp) ∧
  (∀ m, m ∈ collisions ↔ m ∈ own ∧ m ∈ opp) ∧
  result `sublist_of` own ∧ collisions `sublist_of` own ∧
  b' = applyAt utils.markCollision collisions b.
Proof.
  rewrite removeCollidingMines_spec, keepNonCollidingMines_spec. cbn [app].
  split_and!; try done.
  - rewrite (Permutation_app_comm _ _). apply filter_app_complement.
  - intros m. rewrite list_elem_of_filter. tauto.
  - intros m. rewrite list_elem_of_filter. tauto.
  - apply sublist_filter.
  - apply sublist_filter.
Qed.

(** An instance of X12: the two colliding placements on a 3x3 board. *)
Lemma removeCollidingMines_partitions_witness :
  let '(result, collisions, b') :=
    utils.removeCollidingMines (currentMines collider1) (currentMines collider2)
      [] collisionBoard [] in
  mkPosition 2 0 ∈ result ∧ mkPosition 1 1 ∈ collisions.
Proof.
  pose proof (removeCollidingMines_partitions (currentMines collider1)
                (currentMines collider2) collisionBoard) as H.
  destruct (utils.removeCollidingMines _ _ [] collisionBoard [])
    as [[result collisions] b'].
  destruct H as (_ & _ & Hresult & Hcollisions & _).
  split; [apply Hresult|apply Hcollisions];
    (split; apply (bool_decide_unpack _); by vm_compute).
Defined.

(** X13. After [detectAndRemoveCollisions] the two mine lists have no
    position in common, and the players' names, kinds and guesses are as
    before. When the lists had nothing in common to begin with (and the
    counters and sizes fit an [unsigned int]), players and board come back
    unchanged. *)
Theorem detectAndRemoveCollisions_separates (p1 p2 : Player) (b : Board) :
  let '(q1, q2, b') := game.detectAndRemoveCollisions p1 p2 b in
  (∀ m, m ∈ currentMines q1 → m ∉ currentMines q2) ∧
  (isHuman q1, name q1, currentGuesses q1) = (isHuman p1, name p1, currentGuesses p1) ∧
  (isHuman q2, name q2, currentGuesses q2) = (isHuman p2, name p2, currentGuesses p2) ∧
  (player_fits p1 → player_fits p2 →
   (∀ m, m ∈ currentMines p1 → m ∉ currentMines p2) →
   (q1, q2, b') = (p1, p2, b)).
Proof.
  rewrite detectAndRemoveCollisions_spec. cbv zeta.
  cbn [currentMines isHuman name currentGuesses]. split_and!; try done.
  - intros m [Hnot2 Hin1]%list_elem_of_filter [Hnot1 _]%list_elem_of_filter. done.
  - intros (Hrem1 & Hlen1 & _) (Hrem2 & Hlen2 & _) Hdisjoint.
    rewrite (filter_all (λ m, m ∉ currentMines p2)) by done.
    rewrite (filter_all (λ m, m ∉ currentMines p1))
      by (intros m Hm2 Hm1; by apply (Hdisjoint m)).
    rewrite (filter_none (λ m, m ∈ currentMines p2))
      by (intros m Hm1 Hm2; by apply (Hdisjoint m)).
    assert (∀ rem (n : nat), rem < UINT_MODULUS → N.of_nat n < UINT_MODULUS →
      game.subtractOrZero rem
        (int_of_size_t (size_sub (N.of_nat n) (N.of_nat n))) = rem) as Hzero.
    { intros rem n Hrem Hn.
      rewrite (subtractOrZero_floor rem 0); [unfold flooredDifference; lia|done|].
      rewrite to_uint_removed by (done || lia). f_equal. lia. }
    rewrite !Hzero by done. by destruct p1, p2.
Qed.

(** An instance of X13: the mines of [duelist1] and [duelist2] do not meet. *)
Lemma detectAndRemoveCollisions_separates_witness :
  game.detectAndRemoveCollisions duelist1 duelist2 duelBoard
  = (duelist1, duelist2, duelBoard).
Proof.
  pose proof (detectAndRemoveCollisions_separates duelist1 duelist2 duelBoard) as H.
  destruct (game.detectAndRemoveCollisions duelist1 duelist2 duelBoard)
    as [[q1 q2] b'].
  destruct H as (_ & _ & _ & H). apply H; [by split_and!|by split_and!|].
  intros m Hm1 Hm2. revert Hm1 Hm2. cbn [currentMines duelist1 duelist2].
  rewrite !elem_of_cons, !elem_of_nil.
  intros [->|[->|[->|[]]]] [?|[?|[?|[]]]]; done.
Defined.

(** X14. [countHits] counts attacks, not mines. It is never negative and
    never more than the number of attacks; the hits of two attack lists put
    end to end add up, so a repeated attack counts again; with no mines
    there are no hits; and when the attacks are all different the count is
    at most the number of mines. *)
Theorem countHits_bounds (defender : Player) (attacks more : list Position) :
  (0 ≤ game.countHits defender attacks ≤ Z.of_nat (length attacks))%Z ∧
  game.countHits defender (attacks ++ more)
    = (game.countHits defender attacks + game.countHits defender more)%Z ∧
  (currentMines defender = [] → game.countHits defender attacks = 0%Z) ∧
  (NoDup attacks →
   (game.countHits defender attacks ≤ Z.of_nat (length (currentMines defender)))%Z).
Proof.
  unfold game.countHits. rewrite !countHitsFrom_spec, !Z.add_0_l. split_and!.
  - lia.
  - pose proof (length_filter (λ g, g ∈ currentMines defender) attacks). lia.
  - rewrite filter_app, length_app. lia.
  - intros ->. rewrite filter_none; [done|]. intros g _. apply not_elem_of_nil.
  - intros Hnd.
    assert (length (filter (λ g, g ∈ currentMines defender) attacks)
            ≤ length (currentMines defender))%nat; [|lia].
    apply submseteq_length, NoDup_submseteq; [by apply NoDup_filter|].
    by intros g [? _]%list_elem_of_filter.
Qed.

(** An instance of X14: three different attacks on two mines. *)
Lemma countHits_bounds_witness :
  (game.countHits duelist2 (currentGuesses duelist1) ≤ 3)%Z ∧
  game.countHits (player1 0) (currentGuesses duelist1) = 0%Z.
Proof.
  destruct (countHits_bounds duelist2 (currentGuesses duelist1) [])
    as (_ & _ & _ & Hnd).
  destruct (countHits_bounds (player1 0) (currentGuesses duelist1) [])
    as (_ & _ & Hnone & _).
  split; [apply Hnd|by apply Hnone].
  apply (bool_decide_unpack _). by vm_compute.
Defined.

(** X15. [resolveSelfDetonation] returns the number of own mines that match
    an own guess, and keeps the others in their order: the count and the
    mines kept add up to the mines there were, and no kept mine matches a
    guess. It changes neither [remainingMines] (the caller does) nor the
    guesses. Run again on its own result it finds nothing, and when no mine
    matches a guess it returns 0 with player and board unchanged. *)
Theorem resolveSelfDetonation_accounts (player : Player) (b : Board) :
  let '(selfHits, player', b') := game.resolveSelfDetonation player b in
  (selfHits + Z.of_nat (length (currentMines player'))
   = Z.of_nat (length (currentMines player)))%Z ∧
  (∀ m, m ∈ currentMines player' ↔
        m ∈ currentMines player ∧ m ∉ currentGuesses player) ∧
  currentMines player' `sublist_of` currentMines player ∧
  player' = set_currentMines player (currentMines player') ∧
  game.resolveSelfDetonation player' b' = (0%Z, player', b') ∧
  ((∀ m, m ∈ currentMines player → m ∉ currentGuesses player) →
   (selfHits, player', b') = (0%Z, player, b)).
Proof.
  rewrite resolveSelfDetonation_spec.
  cbn [currentMines currentGuesses set_currentMines]. split_and!.
  - pose proof (length_filter_split (λ m, m ∈ currentGuesses player)
                  (currentMines player)) as Hsplit.
    rewrite <-Hsplit. lia.
  - intros m. rewrite list_elem_of_filter. tauto.
  - apply sublist_filter.
  - done.
  - rewrite resolveSelfDetonation_spec.
    cbn [currentMines currentGuesses set_currentMines].
    rewrite (filter_none (λ m, m ∈ currentGuesses player))
      by (by intros m [? _]%list_elem_of_filter).
    rewrite (filter_all (λ m, m ∉ currentGuesses player)
               (filter _ (currentMines player)))
      by (by intros m [? _]%list_elem_of_filter).
    done.
  - intros Hnone.
    rewrite (filter_none (λ m, m ∈ currentGuesses player))
      by (intros m Hm; by apply Hnone).
    rewrite (filter_all (λ m, m ∉ currentGuesses player)) by done.
    by destruct player.
Qed.

(** An instance of X15: Player 2 of the duel guessed none of their own
    mines. *)
Lemma resolveSelfDetonation_accounts_witness :
  game.resolveSelfDetonation duelist2 duelBoard = (0%Z, duelist2, duelBoard).
Proof.
  pose proof (resolveSelfDetonation_accounts duelist2 duelBoard) as H.
  destruct (game.resolveSelfDetonation duelist2 duelBoard) as [[selfHits q] b'].
  destruct H as (_ & _ & _ & _ & _ & H). apply H.
  intros m Hm1 Hm2. revert Hm1 Hm2. cbn [currentMines currentGuesses duelist2].
  rewrite !elem_of_cons, !elem_of_nil.
  intros [->|[->|[->|[]]]] [?|[?|[?|[]]]]; done.
Defined.

End lists.

(** ** Cells that are used up *)

Section closing.
Implicit Types (b : Board) (p g : Position) (w : World).

Lemma isDisabled_reaches b b' c r :
  reaches b b' → isDisabled b c r = Some true → isDisabled b' c r = Some true.
Proof.
  intros R. rewrite !isDisabled_getCellStatus.
  destruct (getCellStatus b c r) as [s|] eqn:Hs; [|done]. cbn.
  intros [= Hd].
  destruct (reaches_keepsMarks b b' R c r s Hs) as (s' & -> & Hkeeps). cbn.
  f_equal. apply Hkeeps; [|done]. apply elem_of_permanentFlags. tauto.
Qed.

Lemma onBoard_reaches b b' p : reaches b b' → onBoard b' p ↔ onBoard b p.
Proof.
  intros [Hw Hh]%reaches_sameDimensions. unfold onBoard, isValidPosition.
  by rewrite Hw, Hh.
Qed.

(** A cell that can be chosen later could be chosen before. *)
Lemma selectable_reaches b b' p :
  reaches b b' → board_wf b → selectable b' p = true → selectable b p = true.
Proof.
  intros R Hwf [Hon Hd]%selectable_spec. apply selectable_spec.
  split; [by apply (onBoard_reaches b b')|].
  destruct (isDisabled_wf b (column p) (row p) Hwf) as [[|] Hd0]; [|done].
  rewrite (isDisabled_reaches b b' _ _ R Hd0) in Hd. done.
Qed.

Lemma isDisabled_marked_guess guesses b g :
  board_wf b → onBoard b g → g ∈ guesses →
  isDisabled (applyAt game.markGuessed guesses b) (column g) (row g) = Some true.
Proof.
  intros Hwf Hon Hin.
  destruct (statusAt_marked game.markGuessed guesses b g) as (s & _ & Hs);
    [apply markGuessed_idempotent|done..|].
  unfold statusAt in Hs. rewrite isDisabled_getCellStatus, Hs. cbn.
  f_equal. apply markGuessed_flags.
Qed.

(** X16. [disableGuessedPositions] marks every guessed cell of the board
    [Disabled] and [WasGuessed] and leaves the cells that were not guessed
    as they were. On every board the game reaches afterwards such a cell
    cannot be chosen: neither [requestPosition] nor [generateRandomPosition]
    ever returns it again. *)
Theorem guessed_cells_stay_closed (guesses : list Position) (b : Board)
    (g : Position) :
  board_wf b → onBoard b g → g ∈ guesses →
  let b' := game.disableGuessedPositions guesses b in
  (∃ s, statusAt b' g = Some s ∧
        hasFlag s Flag.Disabled = true ∧ hasFlag s Flag.WasGuessed = true) ∧
  (∀ p, p ∉ guesses → statusAt b' p = statusAt b p) ∧
  (∀ b'', reaches b' b'' →
     selectable b'' g = false ∧
     (∀ input pos rest,
        utils.requestPosition b'' input = Done (pos, rest) → pos ≠ g) ∧
     (∀ rnd pos rest,
        utils.generateRandomPosition b'' rnd = Done (pos, rest) → pos ≠ g)).
Proof.
  intros Hwf Hon Hin. cbv zeta. rewrite disableGuessedPositions_spec.
  split_and!.
  - destruct (statusAt_marked game.markGuessed guesses b g) as (s & _ & ->);
      [apply markGuessed_idempotent|done..|].
    eexists. split; [done|]. split; apply markGuessed_flags.
  - intros p Hp. by apply statusAt_unmarked; [apply markGuessed_idempotent|].
  - intros b'' R.
    assert (selectable b'' g = false) as Hclosed.
    { apply not_true_is_false. intros [_ Hd]%selectable_spec.
      rewrite (isDisabled_reaches _ b'' _ _ R) in Hd; [done|].
      by apply isDisabled_marked_guess. }
    split_and!; [done| |].
    + intros input pos rest [Hsel _]%requestPosition_Done ->. congruence.
    + intros rnd pos rest Hdone ->.
      apply generateRandomPosition_Done in Hdone as [Hsel _]; [congruence|].
      apply (reaches_wf _ _ R). by apply board_wf_applyAt.
Qed.

(** An instance of X16: the cell (0,0) after it was guessed on a 2x2 board. *)
Lemma guessed_cells_stay_closed_witness :
  selectable (game.clearMines
                (game.disableGuessedPositions [mkPosition 0 0] (Board_new 2 2)))
    (mkPosition 0 0) = false.
Proof.
  destruct (guessed_cells_stay_closed [mkPosition 0 0] (Board_new 2 2)
              (mkPosition 0 0)) as (_ & _ & Hlater).
  - apply board_wf_Board_new.
  - reflexivity.
  - apply list_elem_of_here.
  - apply Hlater, reaches_clearMines.
Defined.

Lemma size_t_of_to_int_nonzero (u : N) :
  u ≠ 0 → u < UINT_MODULUS → size_t_of_int (to_int u) ≠ 0.
Proof.
  intros Hne Hlt. unfold size_t_of_int, to_int. cbv zeta. moduli.
  rewrite (N.mod_small u) by done. change (2 ^ 31) with 2147483648.
  destruct (N.ltb_spec u 2147483648).
  - rewrite Z.mod_small by lia. lia.
  - replace (Z.of_N u - 4294967296)%Z
      with (Z.of_N u - 4294967296 + 18446744073709551616
            + (-1) * 18446744073709551616)%Z by lia.
    rewrite Z.mod_add by lia. rewrite Z.mod_small by lia. lia.
Qed.

Lemma length_lt_of_missing (small large : list Position) (x : Position) :
  NoDup small → (∀ y, y ∈ small → y ∈ large) → x ∈ large → x ∉ small →
  (length small < length large)%nat.
Proof.
  intros Hnd Hsub Hin Hout.
  apply Nat.le_lt_trans with (length (filter (λ y, y ≠ x) large)).
  - apply submseteq_length, NoDup_submseteq; [done|].
    intros y Hy. apply list_elem_of_filter. split; [|by apply Hsub].
    intros ->. done.
  - apply (length_filter_lt _ _ x); [done|]. by intros Hne.
Qed.

(** A round that returns and leaves both players with mines has closed a
    cell that could be chosen when the round began. *)
Lemma playRound_closes_cell (p1 p2 : Player) b w (q1 q2 : Player) b' w' :
  board_wf b →
  game.playRound p1 p2 b w = Done (q1, q2, b', w') →
  remainingMines q2 ≠ 0 →
  ∃ g, selectable b g = true ∧ selectable b' g = false.
Proof.
  intros Hwf Hround Hleft.
  pose proof Hround as (b1 & mines1 & w1 & b2 & mines2 & w2 & b3 & guesses1 & w3
      & b4 & guesses2 & H1 & H2 & H3 & H4 & Hres)%playRound_Done.
  cbv zeta in *.
  pose proof (reaches_clearMines b) as R0.
  pose proof (reaches_collectPositions _ _ _ _ _ _ _ _ (reaches_wf _ _ R0 Hwf) H1) as R1.
  pose proof (reaches_trans _ _ _ R0 R1) as R01.
  pose proof (reaches_collectPositions _ _ _ _ _ _ _ _ (reaches_wf _ _ R01 Hwf) H2) as R2.
  pose proof (reaches_trans _ _ _ R01 R2) as R02.
  pose proof (reaches_detectAndRemoveCollisions
                (set_currentMines p1 mines1) (set_currentMines p2 mines2) b2) as R3.
  pose proof (reaches_trans _ _ _ R02 R3) as R03.
  destruct (game.detectAndRemoveCollisions (set_currentMines p1 mines1)
              (set_currentMines p2 mines2) b2) as [[a1 a2] b5] eqn:Hdetect.
  cbn [fst snd] in *.
  pose proof (reaches_wf _ _ R03 Hwf) as Hwf5.
  apply collectLoop_Done in H3
    as (added1 & Hg1 & Hb3 & _ & Hexact & _ & Hall); [|done].
  cbn [app length] in *. subst guesses1 b3.
  apply collectLoop_Done in H4 as (added2 & Hg2 & Hb4 & _); [|done].
  cbn [app] in *. subst guesses2 b4.
  revert Hres. rewrite resolveRound_spec. cbv zeta.
  cbn [set_currentGuesses currentGuesses currentMines remainingMines isHuman name].
  intros [= -> -> ->]. cbn [remainingMines] in Hleft.
  assert (remainingMines a2 ≠ 0) as Hleft2.
  { intros Hzero.
    match type of Hleft with
    | game.subtractOrZero (game.subtractOrZero _ ?k1) ?k2 ≠ 0 =>
        pose proof (subtractOrZero_le (remainingMines a2) k1) as Hle1;
        pose proof (subtractOrZero_le
                      (game.subtractOrZero (remainingMines a2) k1) k2) as Hle2
    end.
    lia. }
  assert (remainingMines a2 < UINT_MODULUS) as Hrange.
  { revert Hdetect. rewrite detectAndRemoveCollisions_spec. cbv zeta.
    intros [= <- <- <-]. cbn [remainingMines]. apply subtractOrZero_range. }
  pose proof (size_t_of_to_int_nonzero _ Hleft2 Hrange) as Hcount.
  destruct added1 as [|g added1]; [cbn in Hexact; lia|].
  apply Forall_cons in Hall as [Hg _].
  exists g. split; [by apply (selectable_reaches b b5)|].
  apply not_true_is_false. intros [_ Hd]%selectable_spec.
  set (marked := applyAt game.markSelfDetonation _
                   (applyAt game.markSelfDetonation _ b5)) in *.
  assert (reaches b5 marked) as Rm.
  { do 2 (apply reaches_mark; [apply in_callbacks|]). apply reaches_here. }
  rewrite (isDisabled_reaches (applyAt game.markGuessed (g :: added1) marked)) in Hd;
    [done|apply reaches_applyAt, in_callbacks|].
  apply isDisabled_marked_guess; [by apply (reaches_wf b5)| |by left].
  apply (onBoard_reaches b5 marked g Rm). by apply selectable_spec in Hg as [? _].
Qed.

(** X17. Cells only ever close: a cell that can be chosen after a round
    could be chosen before it. A round that returns without ending the game
    has closed at least one cell, so the number of cells that can still be
    chosen has gone down. *)
Theorem round_uses_up_cells (p1 p2 : Player) (b : Board) (w : World)
    (q1 q2 : Player) (b' : Board) (w' : World) :
  board_wf b →
  game.playRound p1 p2 b w = Done (q1, q2, b', w') →
  (∀ p, selectable b' p = true → selectable b p = true) ∧
  ((game.checkGameEnd q1 q2).1 = false →
   (length (selectableCells b') < length (selectableCells b))%nat).
Proof.
  intros Hwf Hround.
  pose proof (playRound_preserves _ _ _ _ _ _ _ _ Hwf Hround) as (R & _ & _).
  split; [intros p; by apply selectable_reaches|].
  intros Hgoes.
  assert (remainingMines q2 ≠ 0) as Hleft.
  { intros Hzero. revert Hgoes. unfold game.checkGameEnd. rewrite Hzero.
    cbn [N.leb N.compare]. by destruct (remainingMines q1 <=? 0). }
  destruct (playRound_closes_cell _ _ _ _ _ _ _ _ Hwf Hround Hleft)
    as (g & Hbefore & Hafter).
  apply (length_lt_of_missing _ _ g).
  - apply NoDup_selectableCells.
  - intros p. rewrite !elem_of_selectableCells. by apply selectable_reaches.
  - by apply elem_of_selectableCells.
  - rewrite elem_of_selectableCells. congruence.
Qed.

(** An instance of X17: the round of [doubleLossSession], after which both
    players still have mines. *)
Lemma round_uses_up_cells_witness :
  ∃ q1 q2 b' w',
    game.playRound (player1 3) (player2 3) (Board_new 3 3) doubleLossSession
      = Done (q1, q2, b', w') ∧
    (game.checkGameEnd q1 q2).1 = false ∧
    (length (selectableCells b') < length (selectableCells (Board_new 3 3)))%nat.
Proof.
  eexists _, _, _, _. split; [vm_compute; reflexivity|].
  match goal with
  | |- (game.checkGameEnd ?q1 ?q2).1 = false ∧
       (length (selectableCells ?b') < _)%nat =>
      destruct (round_uses_up_cells (player1 3) (player2 3) (Board_new 3 3)
                  doubleLossSession q1 q2 b' (mkWorld [] [])) as [_ Hless]
  end.
  - apply board_wf_Board_new.
  - vm_compute. reflexivity.
  - split; [reflexivity|]. apply Hless. reflexivity.
Defined.

End closing.

(** ** How long a game can last *)

Section duration.
Implicit Types (b : Board) (w : World).

Lemma collectPositions_outcome player count mark b w :
  board_wf b →
  game.collectPositions player count b mark w = Starved ∨
  ∃ b' chosen w',
    game.collectPositions player count b mark w = Done (b', chosen, w') ∧
    board_wf b'.
Proof.
  intros Hwf.
  destruct (collectLoop_outcome (game.enoughFuel w) (isHuman player) count mark
              b [] w Hwf) as [Hst|[[[b' chosen] w'] Hdone]]; [done|by left|].
  right. exists b', chosen, w'. split; [done|].
  by eapply reaches_wf; [eapply reaches_collectPositions|].
Qed.

(** A round returns or is left waiting for input. *)
Lemma playRound_outcome (p1 p2 : Player) b w :
  board_wf b →
  game.playRound p1 p2 b w = Starved ∨ ∃ res, game.playRound p1 p2 b w = Done res.
Proof.
  intros Hwf. unfold game.playRound, game.placeMines, game.collectGuessesFromPlayer.
  assert (board_wf (game.clearMines b)) as Hwf0
    by (eapply reaches_wf; [apply reaches_clearMines|done]).
  destruct (collectPositions_outcome p1 (to_int (remainingMines p1)) true _ w Hwf0)
    as [->|(b1 & mines1 & w1 & -> & Hwf1)]; [by left|].
  cbn [mbind Outcome_bind mret Outcome_ret].
  destruct (collectPositions_outcome p2 (to_int (remainingMines p2)) true _ w1 Hwf1)
    as [->|(b2 & mines2 & w2 & -> & Hwf2)]; [by left|].
  cbn [mbind Outcome_bind mret Outcome_ret].
  pose proof (reaches_wf _ _
    (reaches_detectAndRemoveCollisions (set_currentMines p1 mines1)
       (set_currentMines p2 mines2) b2) Hwf2) as Hwf3.
  destruct (game.detectAndRemoveCollisions _ _ b2) as [[a1 a2] b3]. cbn [snd] in Hwf3.
  destruct (collectPositions_outcome a1 (to_int (remainingMines a2)) false _ w2 Hwf3)
    as [->|(b4 & guesses1 & w3 & -> & Hwf4)]; [by left|].
  cbn [mbind Outcome_bind mret Outcome_ret remainingMines set_currentGuesses].
  destruct (collectPositions_outcome a2 (to_int (remainingMines a1)) false _ w3 Hwf4)
    as [->|(b5 & guesses2 & w4 & -> & Hwf5)]; [by left|].
  cbn [mbind Outcome_bind mret Outcome_ret].
  destruct (game.resolveRound _ _ b5) as [[r1 r2] b6]. right. by eexists.
Qed.

(** X18. The number of rounds of a game is bounded by the board. On a board
    whose grid has the declared dimensions, when more rounds are allowed than
    there are cells that can still be chosen, [runMainLoop] has either
    returned, with a verdict, or is waiting for input; it has not used up
    the rounds allowed. *)
Theorem game_ends_or_stalls (fuel : nat) (p1 p2 : Player) (b : Board) (w : World) :
  board_wf b →
  (length (selectableCells b) < fuel)%nat →
  game.runMainLoop fuel p1 p2 b w = Starved ∨
  ∃ q1 q2 b' w' verdict,
    game.runMainLoop fuel p1 p2 b w = Done (q1, q2, b', w', Some verdict).
Proof.
  revert p1 p2 b w. induction fuel as [|fuel IH]; intros p1 p2 b w Hwf Hfuel; [lia|].
  cbn [game.runMainLoop].
  destruct (playRound_outcome p1 p2 b w Hwf) as [->|[[[[q1 q2] b'] w'] Hround]];
    [by left|].
  rewrite Hround. cbn [mbind Outcome_bind].
  pose proof (playRound_preserves _ _ _ _ _ _ _ _ Hwf Hround) as (R & _ & _).
  destruct (game.checkGameEnd q1 q2) as [finished verdict] eqn:Hend.
  destruct finished.
  - right. revert Hend. unfold game.checkGameEnd.
    destruct (_ && _); [intros [= <-]; by eexists _, _, _, _, _|].
    destruct (remainingMines q1 <=? 0); [intros [= <-]; by eexists _, _, _, _, _|].
    destruct (remainingMines q2 <=? 0); [intros [= <-]; by eexists _, _, _, _, _|].
    done.
  - apply IH; [by apply (reaches_wf b)|].
    assert (remainingMines q2 ≠ 0) as Hleft.
    { intros Hzero. revert Hend. unfold game.checkGameEnd. rewrite Hzero.
      cbn [N.leb N.compare]. by destruct (remainingMines q1 <=? 0). }
    destruct (playRound_closes_cell _ _ _ _ _ _ _ _ Hwf Hround Hleft)
      as (g & Hbefore & Hafter).
    assert (length (selectableCells b') < length (selectableCells b))%nat; [|lia].
    apply (length_lt_of_missing _ _ g).
    + apply NoDup_selectableCells.
    + intros p. rewrite !elem_of_selectableCells. by apply selectable_reaches.
    + by apply elem_of_selectableCells.
    + rewrite elem_of_selectableCells. congruence.
Qed.

(** An instance of X18: five rounds allowed on a 2x2 board, with the input
    of the collision scenario. *)
Lemma game_ends_or_stalls_witness :
  game.runMainLoop 5 (player1 1) (player2 1) (Board_new 2 2) collisionSession
    = Starved ∨
  ∃ q1 q2 b' w' verdict,
    game.runMainLoop 5 (player1 1) (player2 1) (Board_new 2 2) collisionSession
    = Done (q1, q2, b', w', Some verdict).
Proof.
  apply game_ends_or_stalls.
  - apply board_wf_Board_new.
  - vm_compute. lia.
Defined.

Lemma selectable_applyAt f ps b p :
  (∀ s, hasFlag (f s) Flag.Disabled = hasFlag s Flag.Disabled) →
  selectable (applyAt f ps b) p = selectable b p.
Proof.
  intros Hf. revert b. induction ps as [|q ps IH]; intros b; [done|].
  change (applyAt f (q :: ps) b)
    with (applyAt f ps (safeCellAccess b (column q) (row q) f)).
  rewrite IH. unfold selectable.
  by rewrite isValidPosition_safeCellAccess, isDisabled_safeCellAccess.
Qed.

Lemma selectableCells_applyAt f ps b :
  (∀ s, hasFlag (f s) Flag.Disabled = hasFlag s Flag.Disabled) →
  selectableCells (applyAt f ps b) = selectableCells b.
Proof.
  intros Hf. unfold selectableCells, allCells, game.columnsOf, game.rowsOf,
    getWidth, getHeight.
  rewrite width_applyAt, height_applyAt.
  apply list_filter_iff. intros p. by rewrite selectable_applyAt.
Qed.

Lemma size_t_of_to_int_small (u : N) :
  u < 2 ^ 31 → size_t_of_int (to_int u) = u.
Proof.
  intros Hlt. unfold size_t_of_int, to_int. cbv zeta. moduli.
  change (2 ^ 31) with 2147483648 in *.
  rewrite (N.mod_small u) by lia.
  destruct (N.ltb_spec u 2147483648); [|lia].
  rewrite Z.mod_small by lia. lia.
Qed.

(** Too few cells for the mines asked for: the collection is left waiting,
    whatever the input. *)
Lemma collectPositions_starves player (rem : N) mark b w :
  board_wf b → rem < 2 ^ 31 →
  N.of_nat (length (selectableCells b)) < rem →
  game.collectPositions player (to_int rem) b mark w = Starved.
Proof.
  intros Hwf Hrem Hfew.
  destruct (collectLoop_outcome (game.enoughFuel w) (isHuman player) (to_int rem)
              mark b [] w Hwf) as [Hst|[[[b' tl'] w'] Hdone]]; [done|done|].
  apply collectLoop_Done in Hdone as (added & -> & _ & Hexit & _ & Hnd & Hall);
    [|done].
  cbn [app] in *. rewrite size_t_of_to_int_small in Hexit by done.
  pose proof (selectable_pigeonhole b added (Hnd (NoDup_nil_2)) Hall). lia.
Qed.

(** X19. A game that asks a player for more mines than there are cells to
    put them on never gets past the placement of its first round:
    [runMainLoop] is left waiting for a position on every input, however
    long. The mine count that [chooseMineCount] accepts does not depend on
    the board, so this happens with 5 mines on a 2x2 board. *)
Theorem game_stalls_with_too_many_mines (fuel : nat) (p1 p2 : Player) (b : Board)
    (w : World) :
  board_wf b →
  remainingMines p1 < 2 ^ 31 → remainingMines p2 < 2 ^ 31 →
  N.of_nat (length (selectableCells b)) < remainingMines p1 ∨
  N.of_nat (length (selectableCells b)) < remainingMines p2 →
  game.runMainLoop (S fuel) p1 p2 b w = Starved.
Proof.
  intros Hwf Hrem1 Hrem2 Hfew. cbn [game.runMainLoop].
  unfold game.playRound, game.placeMines.
  assert (board_wf (game.clearMines b)) as Hwf0
    by (eapply reaches_wf; [apply reaches_clearMines|done]).
  assert (selectableCells (game.clearMines b) = selectableCells b) as Hsame0.
  { rewrite clearMines_spec. apply selectableCells_applyAt.
    intros s. apply unmarkMine_flags. }
  destruct (collectPositions_outcome p1 (to_int (remainingMines p1)) true _ w Hwf0)
    as [->|(b1 & mines1 & w1 & Hdone & Hwf1)]; [done|].
  destruct Hfew as [Hfew|Hfew].
  { rewrite collectPositions_starves in Hdone; [done..|]. by rewrite Hsame0. }
  rewrite Hdone. cbn [mbind Outcome_bind mret Outcome_ret].
  apply collectLoop_Done in Hdone as (added & _ & -> & _); [|done].
  rewrite collectPositions_starves; [done..|].
  rewrite selectableCells_applyAt, Hsame0; [done|].
  intros s. apply markMine_flags.
Qed.

(** An instance of X19: five mines each on a 2x2 board. *)
Lemma game_stalls_with_too_many_mines_witness :
  game.runMainLoop 3 (player1 5) (player2 5) (Board_new 2 2)
    (mkWorld [Coords 1 1; Coords 1 2; Coords 2 1; Coords 2 2; Coords 1 1] [])
  = Starved.
Proof.
  apply game_stalls_with_too_many_mines.
  - apply board_wf_Board_new.
  - reflexivity.
  - reflexivity.
  - left. vm_compute. reflexivity.
Defined.

End duration.

(** ** The numeric prompts *)

Section prompts.
Implicit Types (b : Board) (input : list (option N)).





End prompts.

(** ** The state that a round leaves *)

Section aftermath.
Implicit Types (b : Board) (g m : Position) (w : World).

(** X22. When a round returns, on a board whose grid has the declared
    dimensions: each player's guesses are all different and every guessed
    cell is disabled on the board; each player's mine list has no repeated
    position and none that the player guessed; and the two mine lists have
    no position in common. *)
Theorem round_postcondition (p1 p2 : Player) (b : Board) (w : World)
    (q1 q2 : Player) (b' : Board) (w' : World) :
  board_wf b →
  game.playRound p1 p2 b w = Done (q1, q2, b', w') →
  (NoDup (currentGuesses q1) ∧ NoDup (currentGuesses q2)) ∧
  (∀ g, g ∈ currentGuesses q1 ∨ g ∈ currentGuesses q2 →
     isDisabled b' (column g) (row g) = Some true) ∧
  (NoDup (currentMines q1) ∧ NoDup (currentMines q2)) ∧
  (∀ m, m ∈ currentMines q1 → m ∉ currentGuesses q1) ∧
  (∀ m, m ∈ currentMines q2 → m ∉ currentGuesses q2) ∧
  (∀ m, m ∈ currentMines q1 → m ∉ currentMines q2).
Proof.
  intros Hwf Hround.
  pose proof Hround as (b1 & mines1 & w1 & b2 & mines2 & w2 & b3 & guesses1 & w3
      & b4 & guesses2 & H1 & H2 & H3 & H4 & Hres)%playRound_Done.
  cbv zeta in *.
  pose proof (reaches_clearMines b) as R0.
  pose proof (reaches_collectPositions _ _ _ _ _ _ _ _ (reaches_wf _ _ R0 Hwf) H1) as R1.
  pose proof (reaches_trans _ _ _ R0 R1) as R01.
  pose proof (reaches_collectPositions _ _ _ _ _ _ _ _ (reaches_wf _ _ R01 Hwf) H2) as R2.
  pose proof (reaches_trans _ _ _ R01 R2) as R02.
  pose proof (reaches_detectAndRemoveCollisions
                (set_currentMines p1 mines1) (set_currentMines p2 mines2) b2) as R3.
  pose proof (reaches_trans _ _ _ R02 R3) as R03.
  apply collectLoop_Done in H1 as (added & Hm1 & _ & _ & _ & Hnd1 & _);
    [|by apply (reaches_wf b)].
  apply collectLoop_Done in H2 as (added' & Hm2 & _ & _ & _ & Hnd2 & _);
    [|by apply (reaches_wf b)].
  cbn [app] in *. subst added added'.
  specialize (Hnd1 (NoDup_nil_2)). specialize (Hnd2 (NoDup_nil_2)).
  revert H3 H4 Hres R3 R03. rewrite detectAndRemoveCollisions_spec. cbv zeta.
  cbn [fst snd currentMines set_currentMines remainingMines isHuman name
       currentGuesses].
  set (b5 := applyAt utils.markCollision _ b2).
  intros H3 H4 Hres R3 R03.
  pose proof (reaches_wf _ _ R03 Hwf) as Hwf5.
  apply collectLoop_Done in H3
    as (added1 & Hg1 & Hb3 & _ & _ & Hndg1 & Hall1); [|done].
  cbn [app] in *. subst guesses1 b3.
  apply collectLoop_Done in H4
    as (added2 & Hg2 & Hb4 & _ & _ & Hndg2 & Hall2); [|done].
  cbn [app] in *. subst guesses2 b4.
  specialize (Hndg1 (NoDup_nil_2)). specialize (Hndg2 (NoDup_nil_2)).
  revert Hres. rewrite resolveRound_spec. cbv zeta.
  cbn [set_currentGuesses currentGuesses currentMines remainingMines isHuman name].
  intros [= -> -> ->]. cbn [currentGuesses currentMines].
  set (marked := applyAt game.markSelfDetonation _
                   (applyAt game.markSelfDetonation _ b5)).
  assert (reaches b5 marked) as Rm.
  { do 2 (apply reaches_mark; [apply in_callbacks|]). apply reaches_here. }
  pose proof (reaches_wf _ _ Rm Hwf5) as Hwfm.
  assert (∀ g, selectable b5 g = true → onBoard marked g) as Hon.
  { intros g [? _]%selectable_spec. by apply (onBoard_reaches b5 marked g Rm). }
  rewrite Forall_forall in Hall1, Hall2.
  split_and!; try done.
  - intros g [Hg|Hg].
    + apply (isDisabled_reaches (applyAt game.markGuessed added1 marked));
        [apply reaches_applyAt, in_callbacks|].
      apply isDisabled_marked_guess; [done|by apply Hon, Hall1|done].
    + apply isDisabled_marked_guess; [by apply board_wf_applyAt| |done].
      apply (onBoard_reaches marked); [apply reaches_applyAt, in_callbacks|].
      by apply Hon, Hall2.
  - by do 2 apply NoDup_filter.
  - by do 2 apply NoDup_filter.
  - by intros m [? _]%list_elem_of_filter.
  - by intros m [? _]%list_elem_of_filter.
  - intros m [_ [Hnot2 _]%list_elem_of_filter]%list_elem_of_filter
             [_ [_ Hin2]%list_elem_of_filter]%list_elem_of_filter.
    done.
Qed.

(** An instance of X22: the round of [doubleLossSession]. *)
Lemma round_postcondition_witness :
  ∃ q1 q2 b' w',
    game.playRound (player1 3) (player2 3) (Board_new 3 3) doubleLossSession
      = Done (q1, q2, b', w') ∧
    (∀ g, g ∈ currentGuesses q1 ∨ g ∈ currentGuesses q2 →
       isDisabled b' (column g) (row g) = Some true) ∧
    (∀ m, m ∈ currentMines q1 → m ∉ currentMines q2).
Proof.
  eexists _, _, _, _. split; [vm_compute; reflexivity|].
  match goal with
  | |- (∀ g, g ∈ currentGuesses ?q1 ∨ g ∈ currentGuesses ?q2 →
          isDisabled ?b' _ _ = _) ∧ _ =>
      destruct (round_postcondition (player1 3) (player2 3) (Board_new 3 3)
                  doubleLossSession q1 q2 b' (mkWorld [] []))
        as (_ & Hclosed & _ & _ & _ & Hapart)
  end.
  - apply board_wf_Board_new.
  - vm_compute. reflexivity.
  - split; [exact Hclosed|exact Hapart].
Defined.

End aftermath.
